(** * RechnungsAPI client (client-js): a shallow embedding of [src/index.ts]

    The client is one class wrapping [fetch]: every method builds a URL,
    issues one request and maps the response to a value or to a thrown
    [ApiError].  The embedding keeps the three things the class touches
    explicit:

    - JavaScript values that reach [queryParamsToString], including the
      run-time [undefined] that the TypeScript types let through, strings
      as sequences of 16-bit code units and numbers with the string the
      language gives them;
    - the platform ([fetch], [Response], [URLSearchParams]) as data: a
      [Response] is a record of what its methods answer, the network is a
      function from the requests seen so far to the next response, or to
      the rejection of [fetch];
    - the [async] methods as a small monad over the object [this], whose
      only effects are reading [this], awaiting a [fetch] and throwing.

    Two snapshots of the class are in the repository.  They agree on every
    method they share; the later one adds [archiveLedgerTransaction]. *)

From Stdlib Require Import ZArith Bool List String Ascii.
From Stdlib Require Import DecimalString DecimalZ DecimalPos Lia.
Import ListNotations.

Open Scope list_scope.
Open Scope string_scope.

(* ================================================================== *)
(** ** JavaScript values and completions *)
(* ================================================================== *)

(** Values thrown by the code or by the platform functions it calls.
    [ApiError] is the class of the same name (lines 19-28); [SyntaxError]
    is what [response.json()] rejects with on a body that is not JSON;
    [TypeError] is what a property access on [undefined] raises. *)

#[local] Set Warnings "-register-all".

Inductive Json : Type :=
| Jnull
| Jbool (b : bool)
| Jnumber (n : Z)
| Jstring (s : string)
| Jarray (items : list Json)
| Jobject (members : list (string * Json)).

Inductive Exception : Type :=
| ApiError (status : Z) (body : Json)
| SyntaxError
| TypeError.

Inductive Completion (A : Type) : Type :=
| Return (a : A)
| Throw (e : Exception).

Arguments Return {A} a.
Arguments Throw {A} e.

Module CompletionMonad.
Definition bind {A B} (c : Completion A) (k : A -> Completion B)
  : Completion B :=
  match c with
  | Return a => k a
  | Throw e => Throw e
  end.
End CompletionMonad.

Declare Scope completion_scope.
Delimit Scope completion_scope with completion.
Notation "x <- c ;; k" := (CompletionMonad.bind c (fun x => k))
  (at level 61, c at next level, right associativity) : completion_scope.

(** A JavaScript string is a sequence of 16-bit code units, each given
    here by its two bytes.  [js] writes the string whose code units are
    the bytes of a Latin-1 text. *)
Record CodeUnit : Type := {
  high_byte : ascii;
  low_byte : ascii
}.

Definition DOMString : Type := list CodeUnit.

Fixpoint js (text : string) : DOMString :=
  match text with
  | "" => []
  | String c rest => {| high_byte := zero; low_byte := c |} :: js rest
  end.

Definition CodeUnit_eqb (u v : CodeUnit) : bool :=
  (Ascii.eqb (high_byte u) (high_byte v)
   && Ascii.eqb (low_byte u) (low_byte v))%bool.

Fixpoint DOMString_eqb (s t : DOMString) : bool :=
  match s, t with
  | [], [] => true
  | u :: s', v :: t' => (CodeUnit_eqb u v && DOMString_eqb s' t')%bool
  | _, _ => false
  end.

(** Numbers.  An integer of magnitude at most 2^53 - 1 is kept as the
    integer; every other number value (a fraction, a larger integer, NaN,
    an infinity, negative zero) is kept as the string that the language's
    [ToString] gives for it, such as [0.5], [1e+21] or [NaN]. *)
Definition MAX_SAFE_INTEGER : Z := 9007199254740991.

Definition is_safe_integer (n : Z) : bool :=
  Z.leb (Z.abs n) MAX_SAFE_INTEGER.

Inductive Number : Type :=
| Integer (n : Z) (safe : is_safe_integer n = true)
| NotSafeInteger (rendering : string).

(** [Number.prototype.toString], and the conversion of a number inside a
    template literal: for a safe integer the decimal digits with a
    leading minus sign for negatives; for the other numbers what the
    language answers. *)
Definition Number_toString (x : Number) : string :=
  match x with
  | Integer n _ => NilZero.string_of_int (Z.to_int n)
  | NotSafeInteger rendering => rendering
  end.

(** The values a query parameter can hold when the function runs.  The
    declared type is [string | number | null]; [undefined] is what an
    optional field such as [limit?: Limit] holds when the caller writes
    it out. *)
Inductive JsValue : Type :=
| undefined
| null
| JsString (s : DOMString)
| JsNumber (x : Number).

(** [value.toString()]: a property access, so it raises on [undefined]
    and [null]. *)
Definition toString (value : JsValue) : Completion DOMString :=
  match value with
  | undefined => Throw TypeError
  | null => Throw TypeError
  | JsString s => Return s
  | JsNumber x => Return (js (Number_toString x))
  end.

(** Association lists with first-position overwrite, the order of an
    ordered map: used for plain objects and for the record that
    [URLSearchParams] builds. *)
Section OrderedMap.
Context {K A : Type} (eqb : K -> K -> bool).

Fixpoint map_set (m : list (K * A)) (k : K) (v : A) : list (K * A) :=
  match m with
  | [] => [(k, v)]
  | (k', v') :: m' =>
      if eqb k k' then (k', v) :: m'
      else (k', v') :: map_set m' k v
  end.

Definition map_of_entries (entries : list (K * A)) : list (K * A) :=
  fold_left (fun m kv => map_set m (fst kv) (snd kv)) entries [].

End OrderedMap.

(** Plain objects used as records: the own enumerable properties in the
    order [Object.entries] lists them (array-index keys first, then the
    others as inserted).  Keys are unique in a well-formed object
    ([wf_object]).  Dropping entries keeps that order, so an object built
    again from some of the entries lists them in the same order. *)
Definition Object (A : Type) : Type := list (DOMString * A).

Definition keys {A} (o : Object A) : list DOMString := map fst o.

Definition wf_object {A} (o : Object A) : Prop := NoDup (keys o).

Definition Object_entries {A} (o : Object A) : list (DOMString * A) := o.

(** [Object.fromEntries]: one property assignment per entry, which
    overwrites in place or appends. *)
Definition Object_fromEntries {A} (entries : list (DOMString * A))
  : Object A :=
  map_of_entries DOMString_eqb entries.

(** [Array.prototype.flatMap] with a callback that may throw: the first
    exception aborts the traversal. *)
Fixpoint flatMap {A B} (f : A -> Completion (list B)) (l : list A)
  : Completion (list B) :=
  match l with
  | [] => Return []
  | x :: rest =>
      (ys <- f x ;;
       zs <- flatMap f rest ;;
       Return (ys ++ zs)%list)%completion
  end.

(* ================================================================== *)
(** ** [URLSearchParams]: the form-urlencoded serializer and parser *)
(* ================================================================== *)

(** The serializer and the parser work on bytes: the UTF-8 form of the
    names and values. *)

Module UrlEncoded.

Definition in_range (lo hi c : ascii) : bool :=
  (N.leb (N_of_ascii lo) (N_of_ascii c)
   && N.leb (N_of_ascii c) (N_of_ascii hi))%bool.

(** Bytes the serializer leaves alone: ASCII alphanumerics and [*-._]. *)
Definition unreserved (c : ascii) : bool :=
  (in_range "a" "z" c || in_range "A" "Z" c || in_range "0" "9" c
   || Ascii.eqb c "*" || Ascii.eqb c "-" || Ascii.eqb c "."
   || Ascii.eqb c "_")%bool.

Definition hex_digit (n : N) : ascii :=
  if N.ltb n 10 then ascii_of_N (48 + n) else ascii_of_N (55 + n).

Definition hex_value (c : ascii) : option N :=
  if in_range "0" "9" c then Some (N_of_ascii c - 48)%N
  else if in_range "A" "F" c then Some (N_of_ascii c - 55)%N
  else if in_range "a" "f" c then Some (N_of_ascii c - 87)%N
  else None.

Definition encode_byte (c : ascii) : string :=
  if Ascii.eqb c " " then "+"
  else if unreserved c then String c ""
  else String "%" (String (hex_digit (N_of_ascii c / 16))
                    (String (hex_digit (N_of_ascii c mod 16)) "")).

Fixpoint encode (s : string) : string :=
  match s with
  | "" => ""
  | String c rest => encode_byte c ++ encode rest
  end.

(** [URLSearchParams.prototype.toString]. *)
Fixpoint serialize (l : list (string * string)) : string :=
  match l with
  | [] => ""
  | (name, value) :: rest =>
      let pair := encode name ++ "=" ++ encode value in
      match rest with
      | [] => pair
      | _ :: _ => pair ++ "&" ++ serialize rest
      end
  end.

(** The parser of the same standard, used to say which pairs a query
    string holds: split at [&], drop empty pieces, split each piece at
    its first [=], turn [+] into a space, percent-decode. *)

Fixpoint split_at (sep : ascii) (s : string) : string * option string :=
  match s with
  | "" => ("", None)
  | String c rest =>
      if Ascii.eqb c sep then ("", Some rest)
      else let (head, tail) := split_at sep rest in (String c head, tail)
  end.

Fixpoint split_all (sep : ascii) (s : string) : list string :=
  match s with
  | "" => [""]
  | String c rest =>
      if Ascii.eqb c sep then "" :: split_all sep rest
      else match split_all sep rest with
           | [] => [String c ""]
           | piece :: pieces => String c piece :: pieces
           end
  end.

Fixpoint plus_to_space (s : string) : string :=
  match s with
  | "" => ""
  | String c rest =>
      String (if Ascii.eqb c "+" then " "%char else c) (plus_to_space rest)
  end.

Fixpoint percent_decode (s : string) : string :=
  match s with
  | "" => ""
  | String c rest =>
      if Ascii.eqb c "%" then
        match rest with
        | String h (String l rest') =>
            match hex_value h, hex_value l with
            | Some hi, Some lo =>
                String (ascii_of_N (16 * hi + lo)) (percent_decode rest')
            | _, _ => String c (percent_decode rest)
            end
        | _ => String c (percent_decode rest)
        end
      else String c (percent_decode rest)
  end.

Definition decode (s : string) : string := percent_decode (plus_to_space s).

Definition parse_pair (piece : string) : string * string :=
  match split_at "=" piece with
  | (name, Some value) => (decode name, decode value)
  | (name, None) => (decode name, "")
  end.

Definition parse (query : string) : list (string * string) :=
  map parse_pair
      (filter (fun piece => negb (String.eqb piece "")) (split_all "&" query)).

End UrlEncoded.

(** The conversion to a scalar-value string that [URLSearchParams]
    applies to every name and value: a high surrogate followed by a low
    one is one code point, any other surrogate becomes U+FFFD. *)
Definition code_unit_value (u : CodeUnit) : N :=
  (256 * N_of_ascii (high_byte u) + N_of_ascii (low_byte u))%N.

Definition is_high_surrogate (u : CodeUnit) : bool :=
  (N.leb 55296 (code_unit_value u) && N.leb (code_unit_value u) 56319)%bool.

Definition is_low_surrogate (u : CodeUnit) : bool :=
  (N.leb 56320 (code_unit_value u) && N.leb (code_unit_value u) 57343)%bool.

Definition USVString : Type := list N.

Fixpoint scalar_values (s : DOMString) : USVString :=
  match s with
  | [] => []
  | u :: rest =>
      if is_high_surrogate u then
        match rest with
        | u' :: rest' =>
            if is_low_surrogate u'
            then (65536 + (code_unit_value u - 55296) * 1024
                  + (code_unit_value u' - 56320))%N :: scalar_values rest'
            else 65533%N :: scalar_values rest
        | [] => [65533%N]
        end
      else if is_low_surrogate u then 65533%N :: scalar_values rest
      else code_unit_value u :: scalar_values rest
  end.

Fixpoint USVString_eqb (s t : USVString) : bool :=
  match s, t with
  | [], [] => true
  | x :: s', y :: t' => (N.eqb x y && USVString_eqb s' t')%bool
  | _, _ => false
  end.

(** UTF-8. *)
Definition utf8_code_point (cp : N) : string :=
  if N.ltb cp 128 then String (ascii_of_N cp) ""
  else if N.ltb cp 2048 then
    String (ascii_of_N (192 + cp / 64))
      (String (ascii_of_N (128 + cp mod 64)) "")
  else if N.ltb cp 65536 then
    String (ascii_of_N (224 + cp / 4096))
      (String (ascii_of_N (128 + (cp / 64) mod 64))
         (String (ascii_of_N (128 + cp mod 64)) ""))
  else
    String (ascii_of_N (240 + cp / 262144))
      (String (ascii_of_N (128 + (cp / 4096) mod 64))
         (String (ascii_of_N (128 + (cp / 64) mod 64))
            (String (ascii_of_N (128 + cp mod 64)) ""))).

Fixpoint utf8_encode (s : USVString) : string :=
  match s with
  | [] => ""
  | cp :: rest => utf8_code_point cp ++ utf8_encode rest
  end.

(** The bytes under which a JavaScript string appears in a query. *)
Definition utf8 (s : DOMString) : string := utf8_encode (scalar_values s).

(** [new URLSearchParams(record)]: every key and value of the record is
    converted to a scalar-value string and set in an ordered map, so two
    keys that convert alike leave one entry; [toString] serializes the
    UTF-8 form of the entries. *)
Definition URLSearchParams : Type := list (USVString * USVString).

Definition URLSearchParams_new (init : Object DOMString) : URLSearchParams :=
  map_of_entries USVString_eqb
    (map (fun kv => (scalar_values (fst kv), scalar_values (snd kv)))
         (Object_entries init)).

Definition URLSearchParams_toString (p : URLSearchParams) : string :=
  UrlEncoded.serialize
    (map (fun kv => (utf8_encode (fst kv), utf8_encode (snd kv))) p).

(* ================================================================== *)
(** ** [queryParamsToString] (lines 30-42) *)
(* ================================================================== *)

Definition queryParamsToString (params : option (Object JsValue))
  : Completion string :=
  match params with
  | None => Return ""
  | Some params =>
      (entries <- flatMap
                    (fun kv : DOMString * JsValue =>
                       let (key, value) := kv in
                       match value with
                       | null => Return []
                       | _ => (s <- toString value ;; Return [(key, s)])
                       end)
                    (Object_entries params) ;;
       Return (URLSearchParams_toString
                 (URLSearchParams_new (Object_fromEntries entries))))%completion
  end.

(* ================================================================== *)
(** ** The platform: [fetch], requests and responses *)
(* ================================================================== *)

(** The request body is always [JSON.stringify(value)]; it is kept as the
    value that was serialized. *)
Inductive BodyInit : Type :=
| JSON_stringify (value : Json).

(** Header lists, of a request or of a response. *)
Definition Headers : Type := list (string * string).

Fixpoint Headers_get (hs : Headers) (name : string) : option string :=
  match hs with
  | [] => None
  | (name', value) :: hs' =>
      if String.eqb name name' then Some value else Headers_get hs' name
  end.

(** The second argument of [fetch].  [method] is absent on the reading
    calls, where [fetch] uses GET. *)
Record RequestInit : Type := {
  init_method : option string;
  init_headers : Headers;
  init_body : option BodyInit
}.

(** What [fetch] is called with.  URLs, identifiers, keys and header
    values are [string]s: the class only concatenates them and hands them
    on, and the query string it inserts is 7-bit text. *)
Record Request : Type := {
  input : string;
  init : RequestInit
}.

Definition Request_method (req : Request) : string :=
  match init_method (init req) with
  | Some m => m
  | None => "GET"
  end.

(** A [Response] as the client sees it: the status, the headers, and what
    each of the three body readers answers.  [json()] rejects with
    [SyntaxError] when the body is not JSON. *)
Record Response : Type := {
  Response_status : Z;
  Response_headers : Headers;
  Response_json : Completion Json;
  Response_text : string;
  Response_arrayBuffer : list ascii
}.

(** [response.ok]: the status is in the range 200-299. *)
Definition Response_ok (response : Response) : bool :=
  (Z.leb 200 (Response_status response)
   && Z.leb (Response_status response) 299)%bool.

(* ================================================================== *)
(** ** The object [this] and the monad of the [async] methods *)
(* ================================================================== *)

Record Client : Type := {
  apiKey : string;
  baseUrl : string
}.

(** An [async] method body, run on an object [this]: it settles with a
    completion (and leaves the object in some state), or it awaits a
    [fetch] and goes on with what the promise settles to, a response or a
    rejection. *)
Inductive Async (A : Type) : Type :=
| Settled (this : Client) (c : Completion A)
| Await_fetch (input : string) (init : RequestInit)
              (k : Completion Response -> Async A).

Arguments Settled {A} this c.
Arguments Await_fetch {A} input init k.

Definition Method (A : Type) : Type := Client -> Async A.

Module MethodMonad.

Fixpoint bind_async {A B} (m : Async A) (f : A -> Method B) : Async B :=
  match m with
  | Settled this (Return a) => f a this
  | Settled this (Throw e) => Settled this (Throw e)
  | Await_fetch input init k =>
      Await_fetch input init (fun outcome => bind_async (k outcome) f)
  end.

Definition bind {A B} (m : Method A) (f : A -> Method B) : Method B :=
  fun this => bind_async (m this) f.

Definition ret {A} (a : A) : Method A :=
  fun this => Settled this (Return a).

Definition throw {A} (e : Exception) : Method A :=
  fun this => Settled this (Throw e).

(** A synchronous computation, or an awaited promise that is already
    settled. *)
Definition sync {A} (c : Completion A) : Method A :=
  fun this => Settled this c.

(** Reading a field or a getter of [this]. *)
Definition gets {A} (f : Client -> A) : Method A :=
  fun this => Settled this (Return (f this)).

(** [await fetch(input, init)]: the response, or the rejection thrown at
    the [await]; no method catches it. *)
Definition fetch (input : string) (init : RequestInit) : Method Response :=
  fun this => Await_fetch input init (fun outcome => Settled this outcome).

End MethodMonad.

Import MethodMonad.

Declare Scope method_scope.
Delimit Scope method_scope with method.
Notation "x <- m ;; k" := (MethodMonad.bind m (fun x => k))
  (at level 61, m at next level, right associativity) : method_scope.

(** The network: what [fetch] settles to for a request, given the
    requests made before it: a response, or a rejection (no connection,
    a URL that cannot be parsed). *)
Definition Network : Type := list Request -> Request -> Completion Response.

(** Running a method body against a network that has already been asked
    [history]: the requests handed to [fetch], the object afterwards, the
    completion. *)
Fixpoint run_on {A} (network : Network) (history : list Request)
    (m : Async A) : list Request * Client * Completion A :=
  match m with
  | Settled this c => ([], this, c)
  | Await_fetch input init k =>
      let request := {| input := input; init := init |} in
      let '(sent, this, c) :=
        run_on network (history ++ [request])%list
               (k (network history request)) in
      (request :: sent, this, c)
  end.

(** A server: a network on which every [fetch] resolves to a response. *)
Definition Server : Type := list Request -> Request -> Response.

Fixpoint run {A} (server : Server) (history : list Request) (m : Async A)
  : list Request * Client * Completion A :=
  match m with
  | Settled this c => ([], this, c)
  | Await_fetch input init k =>
      let request := {| input := input; init := init |} in
      let '(sent, this, c) :=
        run server (history ++ [request])%list
            (k (Return (server history request))) in
      (request :: sent, this, c)
  end.

(** The halves of one exchange: the request a body is waiting on, and the
    body resumed with the response to it, or with the rejection. *)
Definition first_request {A} (m : Async A) : option Request :=
  match m with
  | Settled _ _ => None
  | Await_fetch input init _ => Some {| input := input; init := init |}
  end.

Definition after_response {A} (m : Async A) (response : Response) : Async A :=
  match m with
  | Settled this c => Settled this c
  | Await_fetch _ _ k => k (Return response)
  end.

Definition after_rejection {A} (m : Async A) (e : Exception) : Async A :=
  match m with
  | Settled this c => Settled this c
  | Await_fetch _ _ k => k (Throw e)
  end.

(* ================================================================== *)
(** ** [ApiError] (lines 19-28) *)
(* ================================================================== *)

(** [ApiError.fromResponse]: [new ApiError(response.status,
    await response.json())].  A rejected [json()] is not caught. *)
Definition ApiError_fromResponse (response : Response) : Method Exception :=
  (body <- sync (Response_json response) ;;
   ret (ApiError (Response_status response) body))%method.

(* ================================================================== *)
(** ** [Client] (lines 49-274) *)
(* ================================================================== *)

Record ClientOptions : Type := {
  options_apiKey : string;
  options_baseUrl : option string
}.

(** The constructor (lines 50-59). *)
Definition Client_new (options : ClientOptions) : Client :=
  {| apiKey := options_apiKey options;
     baseUrl := match options_baseUrl options with
                | Some url => url
                | None => "https://www.rechnungs-api.de/api/v1"
                end |}.

(** The getter [headers] (lines 64-69). *)
Definition headers (this : Client) : Headers :=
  [ ("Authorization", "ApiKey " ++ apiKey this);
    ("Content-Type", "application/json") ].

Inductive Format : Type := json | xml | pdf.

Definition Format_toString (format : Format) : string :=
  match format with
  | json => "json"
  | xml => "xml"
  | pdf => "pdf"
  end.

(** What a method resolves to: a parsed JSON value (the casts to
    [Document], [Ledger], ... check nothing), the body text, or the body
    bytes. *)
Inductive Value : Type :=
| ParsedJson (value : Json)
| Text (text : string)
| ArrayBuffer (bytes : list ascii).

(** The tail shared by every method but [readDocument]:
    [if (!response.ok) throw await ApiError.fromResponse(response);
     return await response.json()]. *)
Definition json_or_throw (response : Response) : Method Json :=
  if negb (Response_ok response)
  then (e <- ApiError_fromResponse response ;; throw e)%method
  else sync (Response_json response).

Definition createDocument (document : Json) : Method Json :=
  (base <- gets baseUrl ;;
   hs <- gets headers ;;
   response <- fetch (base ++ "/documents")
                 {| init_method := Some "POST";
                    init_headers := hs;
                    init_body := Some (JSON_stringify document) |} ;;
   json_or_throw response)%method.

Definition readDocument (id : string) (format : option Format)
  : Method Value :=
  let format := match format with Some f => f | None => json end in
  (base <- gets baseUrl ;;
   hs <- gets headers ;;
   response <- fetch (base ++ "/documents/" ++ id ++ "?format="
                        ++ Format_toString format)
                 {| init_method := None;
                    init_headers := hs;
                    init_body := None |} ;;
   if negb (Response_ok response)
   then (e <- ApiError_fromResponse response ;; throw e)
   else match format with
        | xml => ret (Text (Response_text response))
        | pdf => ret (ArrayBuffer (Response_arrayBuffer response))
        | json => (document <- sync (Response_json response) ;;
                   ret (ParsedJson document))
        end)%method.

Definition listLedgers (queryParams : Object JsValue) : Method Json :=
  (base <- gets baseUrl ;;
   query <- sync (queryParamsToString (Some queryParams)) ;;
   hs <- gets headers ;;
   response <- fetch (base ++ "/ledgers?" ++ query)
                 {| init_method := None;
                    init_headers := hs;
                    init_body := None |} ;;
   json_or_throw response)%method.

Definition createLedger : Method Json :=
  (base <- gets baseUrl ;;
   hs <- gets headers ;;
   response <- fetch (base ++ "/ledgers")
                 {| init_method := Some "POST";
                    init_headers := hs;
                    init_body := Some (JSON_stringify (Jobject [])) |} ;;
   json_or_throw response)%method.

Definition deleteLedger (ledgerId : string) : Method Json :=
  (base <- gets baseUrl ;;
   hs <- gets headers ;;
   response <- fetch (base ++ "/ledgers/" ++ ledgerId)
                 {| init_method := Some "DELETE";
                    init_headers := hs;
                    init_body := None |} ;;
   json_or_throw response)%method.

Definition listLedgerAccounts (ledgerId : string)
    (queryParams : Object JsValue) : Method Json :=
  (base <- gets baseUrl ;;
   query <- sync (queryParamsToString (Some queryParams)) ;;
   hs <- gets headers ;;
   response <- fetch (base ++ "/ledgers/" ++ ledgerId ++ "/accounts?"
                        ++ query)
                 {| init_method := None;
                    init_headers := hs;
                    init_body := None |} ;;
   json_or_throw response)%method.

Definition createLedgerAccount (ledgerId : string) (account : Json)
  : Method Json :=
  (base <- gets baseUrl ;;
   hs <- gets headers ;;
   response <- fetch (base ++ "/ledgers/" ++ ledgerId ++ "/accounts")
                 {| init_method := Some "POST";
                    init_headers := hs;
                    init_body := Some (JSON_stringify account) |} ;;
   json_or_throw response)%method.

Definition listLedgerTransactions (ledgerId : string)
    (queryParams : Object JsValue) : Method Json :=
  (base <- gets baseUrl ;;
   query <- sync (queryParamsToString (Some queryParams)) ;;
   hs <- gets headers ;;
   response <- fetch (base ++ "/ledgers/" ++ ledgerId ++ "/transactions?"
                        ++ query)
                 {| init_method := None;
                    init_headers := hs;
                    init_body := None |} ;;
   json_or_throw response)%method.

Definition createLedgerTransaction (ledgerId : string) (transaction : Json)
  : Method Json :=
  (base <- gets baseUrl ;;
   hs <- gets headers ;;
   response <- fetch (base ++ "/ledgers/" ++ ledgerId ++ "/transactions")
                 {| init_method := Some "POST";
                    init_headers := hs;
                    init_body := Some (JSON_stringify transaction) |} ;;
   json_or_throw response)%method.

(** In the later snapshot only (lines 242-255 there). *)
Definition archiveLedgerTransaction (ledgerId : string)
    (transactionNumber : Number) : Method Json :=
  (base <- gets baseUrl ;;
   hs <- gets headers ;;
   response <- fetch (base ++ "/ledgers/" ++ ledgerId ++ "/transactions/"
                        ++ Number_toString transactionNumber)
                 {| init_method := Some "DELETE";
                    init_headers := hs;
                    init_body := None |} ;;
   json_or_throw response)%method.

Definition listLedgerBalances (ledgerId : string)
    (queryParams : option (Object JsValue)) : Method Json :=
  (base <- gets baseUrl ;;
   query <- sync (queryParamsToString queryParams) ;;
   hs <- gets headers ;;
   response <- fetch (base ++ "/ledgers/" ++ ledgerId ++ "/balances?"
                        ++ query)
                 {| init_method := None;
                    init_headers := hs;
                    init_body := None |} ;;
   json_or_throw response)%method.

(* ================================================================== *)
(** ** The public surface of the class *)
(* ================================================================== *)

(** One constructor per public method, with its arguments.  Every
    constructor but [ArchiveLedgerTransaction] is a method of both
    snapshots. *)
Inductive Call : Type :=
| CreateDocument (document : Json)
| ReadDocument (id : string) (format : option Format)
| ListLedgers (queryParams : Object JsValue)
| CreateLedger
| DeleteLedger (ledgerId : string)
| ListLedgerAccounts (ledgerId : string) (queryParams : Object JsValue)
| CreateLedgerAccount (ledgerId : string) (account : Json)
| ListLedgerTransactions (ledgerId : string) (queryParams : Object JsValue)
| CreateLedgerTransaction (ledgerId : string) (transaction : Json)
| ArchiveLedgerTransaction (ledgerId : string) (transactionNumber : Number)
| ListLedgerBalances (ledgerId : string)
                     (queryParams : option (Object JsValue)).

Definition method_name (call : Call) : string :=
  match call with
  | CreateDocument _ => "createDocument"
  | ReadDocument _ _ => "readDocument"
  | ListLedgers _ => "listLedgers"
  | CreateLedger => "createLedger"
  | DeleteLedger _ => "deleteLedger"
  | ListLedgerAccounts _ _ => "listLedgerAccounts"
  | CreateLedgerAccount _ _ => "createLedgerAccount"
  | ListLedgerTransactions _ _ => "listLedgerTransactions"
  | CreateLedgerTransaction _ _ => "createLedgerTransaction"
  | ArchiveLedgerTransaction _ _ => "archiveLedgerTransaction"
  | ListLedgerBalances _ _ => "listLedgerBalances"
  end.

(** The [public] members of [src/index.ts], in source order. *)
Definition public_methods_index_ts : list string :=
  [ "createDocument"; "readDocument"; "listLedgers"; "createLedger";
    "deleteLedger"; "listLedgerAccounts"; "createLedgerAccount";
    "listLedgerTransactions"; "createLedgerTransaction";
    "listLedgerBalances" ].

(** The [public] members of the later snapshot, in source order. *)
Definition public_methods : list string :=
  [ "createDocument"; "readDocument"; "listLedgers"; "createLedger";
    "deleteLedger"; "listLedgerAccounts"; "createLedgerAccount";
    "listLedgerTransactions"; "createLedgerTransaction";
    "archiveLedgerTransaction"; "listLedgerBalances" ].

Definition lift_json (m : Method Json) : Method Value :=
  (value <- m ;; ret (ParsedJson value))%method.

(** Calling a public method on [this]. *)
Definition invoke (call : Call) : Method Value :=
  match call with
  | CreateDocument document => lift_json (createDocument document)
  | ReadDocument id format => readDocument id format
  | ListLedgers queryParams => lift_json (listLedgers queryParams)
  | CreateLedger => lift_json createLedger
  | DeleteLedger ledgerId => lift_json (deleteLedger ledgerId)
  | ListLedgerAccounts ledgerId queryParams =>
      lift_json (listLedgerAccounts ledgerId queryParams)
  | CreateLedgerAccount ledgerId account =>
      lift_json (createLedgerAccount ledgerId account)
  | ListLedgerTransactions ledgerId queryParams =>
      lift_json (listLedgerTransactions ledgerId queryParams)
  | CreateLedgerTransaction ledgerId transaction =>
      lift_json (createLedgerTransaction ledgerId transaction)
  | ArchiveLedgerTransaction ledgerId transactionNumber =>
      lift_json (archiveLedgerTransaction ledgerId transactionNumber)
  | ListLedgerBalances ledgerId queryParams =>
      lift_json (listLedgerBalances ledgerId queryParams)
  end.

(** A sequence of calls on one object, each awaited before the next. *)
Fixpoint session (server : Server) (history : list Request) (this : Client)
    (calls : list Call)
  : list Request * Client * list (Completion Value) :=
  match calls with
  | [] => ([], this, [])
  | call :: rest =>
      let '(sent1, this1, c) := run server history (invoke call this) in
      let '(sent2, this2, cs) :=
        session server (history ++ sent1)%list this1 rest in
      ((sent1 ++ sent2)%list, this2, c :: cs)
  end.

(** The declared result types of [readDocument] (the overload signatures,
    lines 98-101): a call is typed by the signature that matches its
    argument list. *)
Inductive TsType : Type :=
| Promise_Document
| Promise_string
| Promise_ArrayBuffer.

Definition readDocument_declared (format : option Format) : TsType :=
  match format with
  | None => Promise_ArrayBuffer
  | Some json => Promise_Document
  | Some xml => Promise_string
  | Some pdf => Promise_ArrayBuffer
  end.

(** Whether a promise of the declared type can resolve to the value. *)
Definition resolves_to (t : TsType) (v : Value) : bool :=
  match t, v with
  | Promise_Document, ParsedJson _ => true
  | Promise_string, Text _ => true
  | Promise_ArrayBuffer, ArrayBuffer _ => true
  | _, _ => false
  end.

(* ================================================================== *)
(** ** Vocabulary of the statements *)
(* ================================================================== *)

(** The pairs of a record whose value is neither absent nor null, each
    value as a string; and the same pairs as they stand in a query, in
    UTF-8. *)
Definition stringified (params : Object JsValue)
  : list (DOMString * DOMString) :=
  flat_map (fun kv : DOMString * JsValue =>
              match snd kv with
              | JsString s => [(fst kv, s)]
              | JsNumber x => [(fst kv, js (Number_toString x))]
              | null | undefined => []
              end) params.

Definition present (params : Object JsValue) : list (string * string) :=
  map (fun kv => (utf8 (fst kv), utf8 (snd kv))) (stringified params).

(** A record whose keys stay distinct once converted to scalar-value
    strings, as [URLSearchParams] converts them. *)
Definition distinct_names (params : Object JsValue) : Prop :=
  NoDup (map scalar_values (keys params)).

(** Text of 7-bit bytes. *)
Definition is_ascii (c : ascii) : bool := N.ltb (N_of_ascii c) 128.

(** A record that has the declared type [Record<string, string | number |
    null>]: no value is [undefined]. *)
Definition declared_value (value : JsValue) : bool :=
  match value with
  | undefined => false
  | _ => true
  end.

Definition declared_record (params : Object JsValue) : bool :=
  forallb (fun kv => declared_value (snd kv)) params.

(** Whether a byte occurs in a string. *)
Fixpoint occurs (c : ascii) (s : string) : bool :=
  match s with
  | "" => false
  | String c' rest => (Ascii.eqb c' c || occurs c rest)%bool
  end.

(** One [name=value] piece of a serialized query. *)
Definition piece (kv : string * string) : string :=
  UrlEncoded.encode (fst kv) ++ "=" ++ UrlEncoded.encode (snd kv).

(** The reader of the response body that the specification assigns to a
    format: the parsed object for json, the text for xml, the bytes for
    pdf. *)
Definition decode_as (format : Format) (response : Response)
  : Completion Value :=
  match format with
  | json => (document <- Response_json response ;;
             Return (ParsedJson document))%completion
  | xml => Return (Text (Response_text response))
  | pdf => Return (ArrayBuffer (Response_arrayBuffer response))
  end.

(** Whether a call is a method of [src/index.ts]. *)
Definition in_index_ts (call : Call) : bool :=
  existsb (String.eqb (method_name call)) public_methods_index_ts.

Definition in_public_methods (call : Call) : bool :=
  existsb (String.eqb (method_name call)) public_methods.

Definition has_header (name value : string) (request : Request) : Prop :=
  Headers_get (init_headers (init request)) name = Some value.

Definition issued_against (base : string) (request : Request) : Prop :=
  String.prefix base (input request) = true.

(** A response with other headers and the same status and body. *)
Definition Response_with_headers (response : Response)
    (hs : Headers) : Response :=
  {| Response_status := Response_status response;
     Response_headers := hs;
     Response_json := Response_json response;
     Response_text := Response_text response;
     Response_arrayBuffer := Response_arrayBuffer response |}.

(** Sample data.  A response with a JSON body is described by its status
    and by what [json()] resolves to; its raw text is read by no statement
    and is left empty.  [xml_invoice] is a 200 response whose body is an
    XML document, [bad_gateway_html] a 502 response whose body is an HTML
    page; [json()] rejects on both. *)
Definition sample_client : Client :=
  Client_new {| options_apiKey := "secret"; options_baseUrl := None |}.

Definition sample_document : Json :=
  Jobject [("id", Jstring "doc_1"); ("type", Jstring "invoice")].


Definition seven : Number := Integer 7 eq_refl.

Definition ten : Number := Integer 10 eq_refl.

(** The one-unit string made of the surrogate U+D800 + [offset], which
    pairs with nothing. *)
Definition lone_surrogate (offset : N) : DOMString :=
  [ {| high_byte := ascii_of_N 216; low_byte := ascii_of_N offset |} ].


Definition json_response (status : Z) (body : Json) : Response :=
  {| Response_status := status;
     Response_headers := [("content-type", "application/json")];
     Response_json := Return body;
     Response_text := "";
     Response_arrayBuffer := [] |}.

Definition text_response (status : Z) (content_type raw : string)
  : Response :=
  {| Response_status := status;
     Response_headers := [("content-type", content_type)];
     Response_json := Throw SyntaxError;
     Response_text := raw;
     Response_arrayBuffer := list_ascii_of_string raw |}.

Definition xml_invoice : Response :=
  text_response 200 "application/xml" "<Invoice/>".

Definition bad_gateway_html : Response :=
  text_response 502 "text/html" "<html><body>Bad Gateway</body></html>".

(** A server that gives the same answer to every request. *)
Definition always (response : Response) : Server := fun _ _ => response.

(* ================================================================== *)
(** ** Vocabulary of the further statements *)
(* ================================================================== *)

(** The record a call hands to [queryParamsToString], if it hands one. *)
Definition query_record (call : Call) : option (Object JsValue) :=
  match call with
  | ListLedgers queryParams => Some queryParams
  | ListLedgerAccounts _ queryParams => Some queryParams
  | ListLedgerTransactions _ queryParams => Some queryParams
  | ListLedgerBalances _ queryParams => queryParams
  | _ => None
  end.

(** The body reader a call applies to a successful response: the one of
    its format for [readDocument], [json()] for every other method. *)
Definition reader_of (call : Call) : Format :=
  match call with
  | ReadDocument _ (Some format) => format
  | _ => json
  end.

(** What a call settles with, given the response to its request; and
    given what its [fetch] settled to. *)
Definition settles_with (call : Call) (response : Response)
  : Completion Value :=
  if Response_ok response then decode_as (reader_of call) response
  else match Response_json response with
       | Return body => Throw (ApiError (Response_status response) body)
       | Throw e => Throw e
       end.

Definition settles_on (call : Call) (outcome : Completion Response)
  : Completion Value :=
  match outcome with
  | Return response => settles_with call response
  | Throw e => Throw e
  end.

(** The body a call puts in its request. *)
Definition body_of (call : Call) : option BodyInit :=
  match call with
  | CreateDocument document => Some (JSON_stringify document)
  | CreateLedger => Some (JSON_stringify (Jobject []))
  | CreateLedgerAccount _ account => Some (JSON_stringify account)
  | CreateLedgerTransaction _ transaction =>
      Some (JSON_stringify transaction)
  | _ => None
  end.

(** Bytes that can stand in the query part of a URL without ending it or
    changing its structure: the unreserved ones and the four the
    serializer writes itself. *)
Definition query_safe (c : ascii) : bool :=
  (UrlEncoded.unreserved c
   || Ascii.eqb c "+" || Ascii.eqb c "%"
   || Ascii.eqb c "=" || Ascii.eqb c "&")%bool.

Fixpoint all_bytes (p : ascii -> bool) (s : string) : bool :=
  match s with
  | "" => true
  | String c rest => (p c && all_bytes p rest)%bool
  end.

(** Reading a decimal numeral back. *)
Definition Number_parse (s : string) : option Z :=
  option_map Z.of_int (NilZero.int_of_string s).






(** A network on which [fetch] rejects. *)
Definition unreachable (e : Exception) : Network := fun _ _ => Throw e.

Definition answering (server : Server) : Network :=
  fun history request => Return (server history request).

Definition is_null (value : JsValue) : bool :=
  match value with
  | null => true
  | _ => false
  end.

Definition all_null (params : Object JsValue) : bool :=
  forallb (fun kv => is_null (snd kv)) params.

(* ================================================================== *)
(** * Properties *)
(* ================================================================== *)

(** ** Strings, ordered maps, objects *)

Lemma CodeUnit_eqb_eq (u v : CodeUnit) : CodeUnit_eqb u v = true <-> u = v.
Proof.
  destruct u as [uh ul], v as [vh vl]. unfold CodeUnit_eqb. simpl.
  rewrite andb_true_iff, !Ascii.eqb_eq. split.
  - now intros [-> ->].
  - intros Heq. inversion Heq. now split.
Qed.

Lemma DOMString_eqb_eq (s t : DOMString) : DOMString_eqb s t = true <-> s = t.
Proof.
  revert t. induction s as [| u s IH]; intros [| v t]; simpl;
    try (split; [discriminate | discriminate]); [tauto |].
  rewrite andb_true_iff, CodeUnit_eqb_eq, IH. split.
  - now intros [-> ->].
  - intros Heq. inversion Heq. now split.
Qed.

Lemma USVString_eqb_eq (s t : USVString) : USVString_eqb s t = true <-> s = t.
Proof.
  revert t. induction s as [| x s IH]; intros [| y t]; simpl;
    try (split; [discriminate | discriminate]); [tauto |].
  rewrite andb_true_iff, N.eqb_eq, IH. split.
  - now intros [-> ->].
  - intros Heq. inversion Heq. now split.
Qed.

Section OrderedMapFacts.
Context {K A : Type} (eqb : K -> K -> bool).
Hypothesis eqb_eq : forall x y, eqb x y = true <-> x = y.

Lemma map_set_fresh (m : list (K * A)) (k : K) (v : A) :
  ~ In k (map fst m) -> map_set eqb m k v = (m ++ [(k, v)])%list.
Proof.
  induction m as [| [k' v'] m IH]; simpl; intros Hfresh.
  - reflexivity.
  - destruct (eqb k k') eqn:Hk.
    + exfalso. apply Hfresh. left. symmetry. now apply eqb_eq.
    + rewrite IH; [reflexivity |]. intros Hin. apply Hfresh. now right.
Qed.

Lemma fold_map_set (entries acc : list (K * A)) :
  NoDup (map fst acc ++ map fst entries)%list ->
  fold_left (fun m kv => map_set eqb m (fst kv) (snd kv)) entries acc
  = (acc ++ entries)%list.
Proof.
  revert acc.
  induction entries as [| [k v] entries IH]; intros acc Hnd; simpl.
  - now rewrite app_nil_r.
  - rewrite map_set_fresh.
    + rewrite IH.
      * now rewrite <- app_assoc.
      * rewrite map_app. simpl. rewrite <- app_assoc. exact Hnd.
    + apply NoDup_remove_2 in Hnd. intros Hin. apply Hnd.
      apply in_or_app. now left.
Qed.

(** Building an ordered map from entries with distinct keys gives the
    entries back. *)
Lemma map_of_entries_distinct (entries : list (K * A)) :
  NoDup (map fst entries) -> map_of_entries eqb entries = entries.
Proof.
  intros Hnd. unfold map_of_entries. now rewrite fold_map_set.
Qed.

Lemma map_set_nonempty (m : list (K * A)) (k : K) (v : A) :
  map_set eqb m k v <> [].
Proof.
  destruct m as [| [k' v'] m]; simpl; [discriminate |].
  destruct (eqb k k'); discriminate.
Qed.

Lemma map_of_entries_empty (entries : list (K * A)) :
  map_of_entries eqb entries = [] <-> entries = [].
Proof.
  split; [| now intros ->].
  unfold map_of_entries.
  assert (Hfold : forall acc,
             fold_left (fun m kv => map_set eqb m (fst kv) (snd kv))
               entries acc = [] -> acc = [] /\ entries = []).
  { induction entries as [| [k v] entries IH]; intros acc Hnil; simpl in *.
    - now split.
    - destruct (IH _ Hnil) as [Hset _].
      now apply map_set_nonempty in Hset. }
  intros Hnil. now destruct (Hfold [] Hnil).
Qed.

End OrderedMapFacts.

(** Rebuilding an object from its own entries gives the object back. *)
Lemma Object_fromEntries_wf {A} (entries : list (DOMString * A)) :
  wf_object entries -> Object_fromEntries entries = entries.
Proof.
  intros Hwf. unfold Object_fromEntries.
  apply map_of_entries_distinct; [apply DOMString_eqb_eq | exact Hwf].
Qed.

(** ** The serializer and the parser are inverse *)

Module UrlEncodedFacts.
Import UrlEncoded.

Lemma occurs_app c s t : occurs c (s ++ t) = (occurs c s || occurs c t)%bool.
Proof.
  induction s as [| c' s IH]; simpl; [reflexivity |].
  now rewrite IH, orb_assoc.
Qed.

(** The separators never survive encoding: all 256 bytes are checked. *)
Lemma encode_byte_separators c :
  occurs "&" (encode_byte c) = false /\ occurs "=" (encode_byte c) = false.
Proof.
  destruct c as [[] [] [] [] [] [] [] []]; split; reflexivity.
Qed.

Lemma encode_separators s :
  occurs "&" (encode s) = false /\ occurs "=" (encode s) = false.
Proof.
  induction s as [| c s [IH1 IH2]]; simpl; [now split |].
  rewrite !occurs_app, IH1, IH2.
  destruct (encode_byte_separators c) as [-> ->]. now split.
Qed.

Lemma plus_to_space_app s t :
  plus_to_space (s ++ t) = plus_to_space s ++ plus_to_space t.
Proof.
  induction s as [| c s IH]; simpl; [reflexivity | now rewrite IH].
Qed.

Lemma decode_encode_byte c rest :
  percent_decode (plus_to_space (encode_byte c) ++ rest)
  = String c (percent_decode rest).
Proof.
  destruct c as [[] [] [] [] [] [] [] []]; reflexivity.
Qed.

Lemma decode_encode s : decode (encode s) = s.
Proof.
  unfold decode.
  induction s as [| c s IH]; simpl; [reflexivity |].
  now rewrite plus_to_space_app, decode_encode_byte, IH.
Qed.

Lemma split_at_first sep a b :
  occurs sep a = false ->
  split_at sep (a ++ String sep b) = (a, Some b).
Proof.
  induction a as [| c a IH]; simpl; intros Hno.
  - now rewrite Ascii.eqb_refl.
  - apply orb_false_elim in Hno as [Hc Ha].
    rewrite Hc, IH by exact Ha. reflexivity.
Qed.

Lemma split_all_last sep a :
  occurs sep a = false -> split_all sep a = [a].
Proof.
  induction a as [| c a IH]; simpl; intros Hno; [reflexivity |].
  apply orb_false_elim in Hno as [Hc Ha].
  now rewrite Hc, IH.
Qed.

Lemma split_all_first sep a b :
  occurs sep a = false ->
  split_all sep (a ++ String sep b) = a :: split_all sep b.
Proof.
  induction a as [| c a IH]; simpl; intros Hno.
  - now rewrite Ascii.eqb_refl.
  - apply orb_false_elim in Hno as [Hc Ha].
    now rewrite Hc, IH.
Qed.

Lemma piece_no_amp kv : occurs "&" (piece kv) = false.
Proof.
  unfold piece. rewrite !occurs_app. simpl.
  destruct (encode_separators (fst kv)) as [-> _].
  destruct (encode_separators (snd kv)) as [-> _]. reflexivity.
Qed.

Lemma piece_nonempty kv : String.eqb (piece kv) "" = false.
Proof.
  unfold piece. destruct (encode (fst kv)); reflexivity.
Qed.

Lemma parse_piece kv : parse_pair (piece kv) = kv.
Proof.
  unfold parse_pair, piece. simpl.
  rewrite split_at_first by apply encode_separators.
  rewrite !decode_encode. now destruct kv.
Qed.

Lemma split_serialize kv l :
  split_all "&" (serialize (kv :: l)) = map piece (kv :: l).
Proof.
  revert kv. induction l as [| kv' l IH]; intros [k v].
  - simpl. apply (split_all_last "&" (piece (k, v))), piece_no_amp.
  - change (serialize ((k, v) :: kv' :: l))
      with (piece (k, v) ++ String "&" (serialize (kv' :: l))).
    rewrite split_all_first by apply piece_no_amp.
    now rewrite IH.
Qed.

(** Parsing a serialized list of pairs gives the list back: a query
    string holds exactly the pairs it was built from. *)
Lemma parse_serialize l : parse (serialize l) = l.
Proof.
  destruct l as [| kv l]; [reflexivity |].
  unfold parse. rewrite split_serialize.
  generalize (kv :: l). clear. intros l.
  induction l as [| kv l IH]; simpl; [reflexivity |].
  rewrite piece_nonempty. simpl. now rewrite parse_piece, IH.
Qed.

End UrlEncodedFacts.

(** ** [queryParamsToString] *)

(** Latin text of 7-bit bytes stands in a query as itself. *)
Lemma scalar_values_js_ascii (c : ascii) (rest : string) :
  is_ascii c = true ->
  scalar_values (js (String c rest)) = N_of_ascii c :: scalar_values (js rest).
Proof.
  destruct c as [[] [] [] [] [] [] [] []]; intros Hc;
    try discriminate Hc; reflexivity.
Qed.

Lemma utf8_code_point_ascii (c : ascii) :
  is_ascii c = true -> utf8_code_point (N_of_ascii c) = String c "".
Proof.
  destruct c as [[] [] [] [] [] [] [] []]; intros Hc;
    try discriminate Hc; reflexivity.
Qed.

Lemma utf8_js_ascii (text : string) :
  all_bytes is_ascii text = true -> utf8 (js text) = text.
Proof.
  unfold utf8.
  induction text as [| c text IH]; intros Hascii; [reflexivity |].
  simpl in Hascii. apply andb_prop in Hascii as [Hc Hrest].
  rewrite (scalar_values_js_ascii _ _ Hc).
  cbn [utf8_encode]. rewrite (utf8_code_point_ascii _ Hc), (IH Hrest).
  reflexivity.
Qed.

Lemma decimal_digits_ascii (d : Decimal.uint) :
  all_bytes is_ascii (NilEmpty.string_of_uint d) = true.
Proof.
  induction d; simpl; try reflexivity; exact IHd.
Qed.

Lemma Number_toString_Integer_ascii (n : Z) (safe : is_safe_integer n = true) :
  all_bytes is_ascii (Number_toString (Integer n safe)) = true.
Proof.
  unfold Number_toString, NilZero.string_of_int, NilZero.string_of_uint.
  destruct (Z.to_int n) as [d | d]; destruct d; simpl;
    try reflexivity; apply decimal_digits_ascii.
Qed.

Lemma Number_parse_Integer (n : Z) (safe : is_safe_integer n = true) :
  Number_parse (Number_toString (Integer n safe)) = Some n.
Proof.
  unfold Number_parse, Number_toString.
  rewrite NilZero.isi.
  - simpl. now rewrite DecimalZ.of_to.
  - destruct n; simpl; try discriminate.
    intros Heq. inversion Heq as [Hnil].
    now apply Unsigned.to_uint_nonnil in Hnil.
  - destruct n; simpl; try discriminate.
    intros Heq. inversion Heq as [Hnil].
    now apply Unsigned.to_uint_nonnil in Hnil.
Qed.

Section QueryParams.

Let entry (kv : DOMString * JsValue)
  : Completion (list (DOMString * DOMString)) :=
  let (key, value) := kv in
  match value with
  | null => Return []
  | _ => (s <- toString value ;; Return [(key, s)])%completion
  end.

Lemma flatMap_declared (params : Object JsValue) :
  declared_record params = true ->
  flatMap entry params = Return (stringified params).
Proof.
  induction params as [| [k v] params IH]; simpl; intros Hdecl.
  - reflexivity.
  - apply andb_prop in Hdecl as [Hv Hrest].
    rewrite (IH Hrest).
    destruct v; simpl in *; try reflexivity. discriminate.
Qed.

Lemma flatMap_undefined (params : Object JsValue) (k : DOMString) :
  In (k, undefined) params -> flatMap entry params = Throw TypeError.
Proof.
  induction params as [| [k' v] params IH]; simpl; intros Hin.
  - contradiction.
  - destruct Hin as [Heq | Hin].
    + inversion Heq; subst. reflexivity.
    + rewrite (IH Hin). destruct v; reflexivity.
Qed.

Lemma undeclared_has_undefined (params : Object JsValue) :
  declared_record params = false -> exists k, In (k, undefined) params.
Proof.
  induction params as [| [k v] params IH]; simpl; intros Hdecl.
  - discriminate.
  - apply andb_false_iff in Hdecl as [Hv | Hrest].
    + destruct v; try discriminate. exists k. now left.
    + destruct (IH Hrest) as [k' Hin]. exists k'. now right.
Qed.

Lemma keys_stringified_incl (params : Object JsValue) (k : DOMString) :
  In k (keys (stringified params)) -> In k (keys params).
Proof.
  induction params as [| [k' v] params IH]; simpl; [tauto |].
  destruct v; simpl; intuition.
Qed.

Lemma stringified_distinct (params : Object JsValue) :
  distinct_names params ->
  NoDup (map scalar_values (keys (stringified params))).
Proof.
  unfold distinct_names.
  induction params as [| [k v] params IH]; simpl; intros Hnd.
  - constructor.
  - inversion Hnd as [| ? ? Hfresh Hrest]; subst.
    assert (Hkeep : ~ In (scalar_values k)
                      (map scalar_values (keys (stringified params)))).
    { intros Hin. apply Hfresh.
      apply in_map_iff in Hin as (k' & Heq & Hin).
      apply in_map_iff. exists k'. split; [exact Heq |].
      now apply keys_stringified_incl. }
    destruct v; simpl; auto; constructor; auto.
Qed.

Lemma queryParamsToString_declared (params : Object JsValue) :
  distinct_names params ->
  declared_record params = true ->
  queryParamsToString (Some params)
  = Return (UrlEncoded.serialize (present params)).
Proof.
  intros Hnames Hdecl. unfold queryParamsToString, Object_entries.
  fold entry. rewrite (flatMap_declared _ Hdecl).
  cbn [CompletionMonad.bind].
  pose proof (stringified_distinct _ Hnames) as Hnd.
  rewrite Object_fromEntries_wf
    by (unfold wf_object, keys in *; now apply NoDup_map_inv in Hnd).
  unfold URLSearchParams_new, URLSearchParams_toString, Object_entries.
  rewrite (map_of_entries_distinct _ USVString_eqb_eq).
  - unfold present. rewrite map_map. reflexivity.
  - unfold keys in Hnd. rewrite map_map in *. exact Hnd.
Qed.

Lemma queryParamsToString_undefined (params : Object JsValue)
    (k : DOMString) :
  In (k, undefined) params ->
  queryParamsToString (Some params) = Throw TypeError.
Proof.
  intros Hin. unfold queryParamsToString, Object_entries.
  fold entry. now rewrite (flatMap_undefined _ _ Hin).
Qed.

End QueryParams.

(** The pairs kept are those of the record whose value is not null and
    has a string form. *)
Lemma stringified_In (params : Object JsValue) (key text : DOMString) :
  In (key, text) (stringified params)
  <-> exists value,
      In (key, value) params /\ value <> null /\ toString value = Return text.
Proof.
  unfold stringified. rewrite in_flat_map. split.
  - intros [[k' v] [Hin Hkept]]. exists v.
    destruct v; simpl in Hkept; try contradiction;
      destruct Hkept as [Heq | []]; inversion Heq; subst;
      (split; [exact Hin | split; [discriminate | reflexivity]]).
  - intros (v & Hin & Hnull & Hstr). exists (key, v). split; [exact Hin |].
    destruct v; simpl in *; try discriminate; try congruence;
      inversion Hstr; now left.
Qed.

Lemma present_In (params : Object JsValue) (name value : string) :
  In (name, value) (present params)
  <-> exists key v text,
      In (key, v) params /\ v <> null /\ toString v = Return text
      /\ name = utf8 key /\ value = utf8 text.
Proof.
  unfold present. rewrite in_map_iff. split.
  - intros [[key text] [Heq Hin]]. simpl in Heq. inversion Heq; subst.
    apply stringified_In in Hin as (v & Hin & Hnull & Hstr).
    exists key, v, text. repeat split; assumption.
  - intros (key & v & text & Hin & Hnull & Hstr & -> & ->).
    exists (key, text). split; [reflexivity |].
    apply stringified_In. exists v. repeat split; assumption.
Qed.

(** C4, as amended. For every record none of whose values is [undefined]
    and whose keys stay distinct as URL text, the query string holds
    exactly the pairs whose value is not null, each value as a string:
    the builder returns the serialization of those pairs, and parsing the
    string gives back exactly the pairs [(name, value)] where the record
    has a non-null value at a key, [name] is the key and [value] the
    string form of the value, both in UTF-8.  A safe integer appears as
    its decimal numeral, plain 7-bit text as itself.
    [{limit: 10, cursor: null}] gives [limit=10]; the empty record and
    the absent record give the empty string. *)
Theorem queryParamsToString_holds_present_pairs :
  (forall params : Object JsValue,
      distinct_names params ->
      declared_record params = true ->
      exists query,
        queryParamsToString (Some params) = Return query
        /\ query = UrlEncoded.serialize (present params)
        /\ UrlEncoded.parse query = present params
        /\ (forall name value,
               In (name, value) (UrlEncoded.parse query)
               <-> exists key v text,
                   In (key, v) params
                   /\ v <> null /\ toString v = Return text
                   /\ name = utf8 key /\ value = utf8 text)
        /\ (forall key n safe,
               all_bytes is_ascii key = true ->
               In (js key, JsNumber (Integer n safe)) params ->
               exists numeral,
                 In (key, numeral) (UrlEncoded.parse query)
                 /\ Number_parse numeral = Some n)
        /\ (forall key text,
               all_bytes is_ascii key = true ->
               all_bytes is_ascii text = true ->
               In (js key, JsString (js text)) params ->
               In (key, text) (UrlEncoded.parse query)))
  /\ queryParamsToString (Some [(js "limit", JsNumber ten); (js "cursor", null)])
     = Return "limit=10"
  /\ queryParamsToString (Some []) = Return ""
  /\ queryParamsToString None = Return "".
Proof.
  split; [| repeat split].
  intros params Hnames Hdecl.
  exists (UrlEncoded.serialize (present params)).
  rewrite UrlEncodedFacts.parse_serialize.
  split; [now apply queryParamsToString_declared |].
  split; [reflexivity |]. split; [reflexivity |].
  split; [intros name value; apply present_In |]. split.
  - intros key n safe Hkey Hin.
    exists (Number_toString (Integer n safe)).
    split; [| apply Number_parse_Integer].
    apply present_In.
    exists (js key), (JsNumber (Integer n safe)),
      (js (Number_toString (Integer n safe))).
    split; [exact Hin |]. split; [discriminate |].
    split; [reflexivity |].
    rewrite (utf8_js_ascii _ Hkey),
      (utf8_js_ascii _ (Number_toString_Integer_ascii n safe)).
    now split.
  - intros key text Hkey Htext Hin.
    apply present_In.
    exists (js key), (JsString (js text)), (js text).
    split; [exact Hin |]. split; [discriminate |].
    split; [reflexivity |].
    rewrite (utf8_js_ascii _ Hkey), (utf8_js_ascii _ Htext). now split.
Qed.

Lemma queryParamsToString_holds_present_pairs_witness :
  let params := [(js "limit", JsNumber ten);
                 (js "cursor", JsString (js "a b&c"))] in
  distinct_names params
  /\ declared_record params = true
  /\ exists query,
       queryParamsToString (Some params) = Return query
       /\ query = "limit=10&cursor=a+b%26c"
       /\ UrlEncoded.parse query = [("limit", "10"); ("cursor", "a b&c")].
Proof.
  assert (Hnames : distinct_names [(js "limit", JsNumber ten);
                                   (js "cursor", JsString (js "a b&c"))]).
  { unfold distinct_names. simpl.
    repeat constructor; simpl; intuition discriminate. }
  split; [exact Hnames |]. split; [reflexivity |].
  destruct (proj1 queryParamsToString_holds_present_pairs _ Hnames eq_refl)
    as (query & Hquery & Hform & Hparse & _).
  exists query. repeat split; assumption.
Defined.

(** C4 as first stated fails on two kinds of record.  A record with an
    [undefined] value, which has no pair to show, makes the builder throw
    instead of returning the empty string; and two keys that are lone
    surrogates, distinct as keys, convert to the same name and leave one
    pair where the record has two. *)
Lemma queryParamsToString_not_for_every_record :
  queryParamsToString (Some [(js "limit", undefined)]) = Throw TypeError
  /\ present [(js "limit", undefined)] = []
  /\ (let params := [(lone_surrogate 0, JsString (js "x"));
                     (lone_surrogate 1, JsString (js "y"))] in
      wf_object params
      /\ declared_record params = true
      /\ queryParamsToString (Some params) = Return "%EF%BF%BD=y"
      /\ present params = [(utf8 (lone_surrogate 0), "x");
                            (utf8 (lone_surrogate 1), "y")]
      /\ utf8 (lone_surrogate 0) = utf8 (lone_surrogate 1))
  /\ ~ (forall params : Object JsValue,
           wf_object params ->
           exists query,
             queryParamsToString (Some params) = Return query
             /\ UrlEncoded.parse query = present params).
Proof.
  split; [reflexivity |]. split; [reflexivity |]. split.
  - split.
    + unfold wf_object. simpl. repeat constructor; simpl; intuition discriminate.
    + repeat split.
  - intros Hclaim.
    destruct (Hclaim [(js "limit", undefined)]) as (query & Hquery & _).
    + unfold wf_object. simpl. repeat constructor. simpl. tauto.
    + discriminate Hquery.
Qed.

(** C10. A record with a key whose value is [undefined] makes the builder
    fault: [toString] is applied to [undefined] and raises [TypeError].
    The builder returns a string exactly when no value is [undefined],
    that is when every value is a string, a number or null.  A list
    method given such a record rejects before any request is sent. *)
Theorem queryParamsToString_faults_on_undefined :
  (forall (params : Object JsValue) (k : DOMString),
      In (k, undefined) params ->
      queryParamsToString (Some params) = Throw TypeError)
  /\ (forall params : Object JsValue,
         (exists query, queryParamsToString (Some params) = Return query)
         <-> declared_record params = true)
  /\ (forall (params : Object JsValue) (k : DOMString),
         In (k, undefined) params ->
         forall server history this,
           run server history (invoke (ListLedgers params) this)
           = ([], this, Throw TypeError)).
Proof.
  split; [| split].
  - exact queryParamsToString_undefined.
  - intros params. split.
    + intros [query Hquery].
      destruct (declared_record params) eqn:Hdecl; [reflexivity |].
      destruct (undeclared_has_undefined _ Hdecl) as [k Hin].
      rewrite (queryParamsToString_undefined _ _ Hin) in Hquery.
      discriminate.
    + intros Hdecl. unfold queryParamsToString, Object_entries.
      rewrite (flatMap_declared _ Hdecl). simpl. eauto.
  - intros params k Hin server history this.
    unfold invoke, lift_json, listLedgers, bind, gets, sync.
    cbn [bind_async].
    rewrite (queryParamsToString_undefined _ _ Hin). reflexivity.
Qed.

Lemma queryParamsToString_faults_on_undefined_witness :
  In (js "limit", undefined) [(js "limit", undefined); (js "cursor", null)]
  /\ queryParamsToString (Some [(js "limit", undefined); (js "cursor", null)])
     = Throw TypeError.
Proof.
  assert (Hin : In (js "limit", undefined)
                   [(js "limit", undefined); (js "cursor", null)]) by now left.
  split; [exact Hin |].
  exact (proj1 queryParamsToString_faults_on_undefined _ _ Hin).
Defined.
(** ** One call is one exchange *)

Ltac unfold_methods :=
  unfold invoke, lift_json, createDocument, readDocument, listLedgers,
    createLedger, deleteLedger, listLedgerAccounts, createLedgerAccount,
    listLedgerTransactions, createLedgerTransaction,
    archiveLedgerTransaction, listLedgerBalances, json_or_throw,
    ApiError_fromResponse, bind, ret, throw, sync, gets, fetch in *.

Ltac step_method :=
  cbn [bind_async first_request after_response after_rejection negb] in *.

(** Unfolds the method of each call up to its [fetch]; the calls that
    build a query string split on whether the builder returned. *)
Ltac by_method call :=
  destruct call; unfold_methods; step_method;
  try match goal with
      | |- context [queryParamsToString ?q] =>
          destruct (queryParamsToString q); step_method
      | H : context [queryParamsToString ?q] |- _ =>
          destruct (queryParamsToString q); step_method
      end.

Ltac settle response :=
  destruct (Response_ok response); step_method;
  try destruct (Response_json response); step_method.

Lemma prefix_append (base rest : string) :
  String.prefix base (base ++ rest) = true.
Proof.
  induction base as [| c base IH]; simpl.
  - now destruct rest.
  - destruct (ascii_dec c c) as [_ | Hneq]; [exact IH | congruence].
Qed.

Lemma run_exchange {A} (server : Server) (history : list Request)
    (m : Async A) (request : Request) (this : Client) (c : Completion A) :
  first_request m = Some request ->
  after_response m (server history request) = Settled this c ->
  run server history m = ([request], this, c).
Proof.
  destruct m as [this0 c0 | input init k]; simpl; intros Hreq Hafter.
  - discriminate.
  - inversion Hreq; subst. simpl. now rewrite Hafter.
Qed.

(** The same on a network: the body goes on with whatever [fetch]
    settled to. *)
Lemma run_on_exchange {A} (network : Network) (history : list Request)
    (m : Async A) (request : Request) (this : Client) (c : Completion A) :
  first_request m = Some request ->
  match network history request with
  | Return response => after_response m response
  | Throw e => after_rejection m e
  end = Settled this c ->
  run_on network history m = ([request], this, c).
Proof.
  destruct m as [this0 c0 | input init k]; simpl; intros Hreq Hafter.
  - discriminate.
  - inversion Hreq; subst.
    destruct (network history _) as [response | e];
      now rewrite Hafter.
Qed.

(** A call either faults before it sends anything, or sends one request,
    built from the object's base URL and headers, and settles on the
    response; the object is the same afterwards. *)
Lemma invoke_single_exchange (call : Call) (this : Client) :
  (exists e, invoke call this = Settled this (Throw e))
  \/ (exists request,
         first_request (invoke call this) = Some request
         /\ init_headers (init request) = headers this
         /\ issued_against (baseUrl this) request
         /\ forall response,
             exists c,
               after_response (invoke call this) response = Settled this c).
Proof.
  by_method call;
    solve
      [ left; eauto
      | right; eexists; split; [reflexivity |];
        split; [reflexivity |];
        split; [apply prefix_append |];
        intros response;
        try match goal with
            | |- context [match ?f with json => _ | xml => _ | pdf => _ end] =>
                destruct f
            end;
        settle response; eauto ].
Qed.

Lemma run_invoke (server : Server) (history : list Request)
    (call : Call) (this : Client) :
  exists sent c,
    run server history (invoke call this) = (sent, this, c)
    /\ Forall (fun request =>
                 init_headers (init request) = headers this
                 /\ issued_against (baseUrl this) request) sent.
Proof.
  destruct (invoke_single_exchange call this)
    as [[e He] | (request & Hreq & Hhs & Hbase & Hafter)].
  - rewrite He. simpl. eauto.
  - destruct (Hafter (server history request)) as [c Hc].
    exists [request], c. split.
    + now apply run_exchange.
    + repeat constructor; assumption.
Qed.

Lemma session_invariant (server : Server) (calls : list Call) :
  forall (history : list Request) (this : Client),
  exists sent cs,
    session server history this calls = (sent, this, cs)
    /\ Forall (fun request =>
                 init_headers (init request) = headers this
                 /\ issued_against (baseUrl this) request) sent.
Proof.
  induction calls as [| call calls IH]; intros history this.
  - simpl. eauto.
  - simpl.
    destruct (run_invoke server history call this) as (sent1 & c & -> & H1).
    destruct (IH (history ++ sent1)%list this) as (sent2 & cs & -> & H2).
    exists (sent1 ++ sent2)%list, (c :: cs). split; [reflexivity |].
    apply Forall_app. now split.
Qed.

(** ** [readDocument] *)

(** C1. On a successful response, what [readDocument] resolves to is
    fixed by the format argument alone (json when it is absent): the
    parsed object for json, the text for xml, the bytes for pdf.  The
    request carries that format, and neither the response headers nor
    what the other readers would say of the body changes the result. *)
Theorem readDocument_decoding_by_format :
  forall (this : Client) (id : string) (format : option Format),
    let chosen := match format with Some f => f | None => json end in
    (exists request,
        first_request (readDocument id format this) = Some request
        /\ input request
           = baseUrl this ++ "/documents/" ++ id ++ "?format="
               ++ Format_toString chosen)
    /\ (forall response,
           Response_ok response = true ->
           after_response (readDocument id format this) response
           = Settled this (decode_as chosen response))
    /\ (forall response hs,
           after_response (readDocument id format this)
             (Response_with_headers response hs)
           = after_response (readDocument id format this) response)
    /\ (forall response1 response2,
           Response_ok response1 = true ->
           Response_ok response2 = true ->
           decode_as chosen response1 = decode_as chosen response2 ->
           after_response (readDocument id format this) response1
           = after_response (readDocument id format this) response2).
Proof.
  intros this id format chosen.
  assert (Hdecode : forall response,
             Response_ok response = true ->
             after_response (readDocument id format this) response
             = Settled this (decode_as chosen response)).
  { intros response Hok. subst chosen.
    unfold_methods. step_method. rewrite Hok. step_method.
    destruct format as [[] |]; unfold decode_as; step_method;
      try reflexivity; destruct (Response_json response); reflexivity. }
  split; [| split; [exact Hdecode | split]].
  - eexists. split; reflexivity.
  - intros response hs. reflexivity.
  - intros response1 response2 Hok1 Hok2 Heq.
    now rewrite (Hdecode _ Hok1), (Hdecode _ Hok2), Heq.
Qed.

Lemma readDocument_decoding_by_format_witness :
  Response_ok xml_invoice = true
  /\ after_response (readDocument "doc_1" (Some xml) sample_client)
       xml_invoice
     = Settled sample_client (Return (Text "<Invoice/>")).
Proof.
  split; [reflexivity |].
  exact (proj1 (proj2 (readDocument_decoding_by_format
                         sample_client "doc_1" (Some xml)))
           xml_invoice eq_refl).
Defined.

(** C2. Called without a format, [readDocument] asks for [format=json]
    and resolves to the parsed object of a successful response; the
    signature that types this call declares [Promise<ArrayBuffer>], which
    the parsed object is not. *)
Theorem readDocument_default_format :
  forall (this : Client) (id : string) (response : Response)
         (document : Json),
    Response_ok response = true ->
    Response_json response = Return document ->
    (exists request,
        first_request (readDocument id None this) = Some request
        /\ input request
           = baseUrl this ++ "/documents/" ++ id ++ "?format=json")
    /\ after_response (readDocument id None this) response
       = Settled this (Return (ParsedJson document))
    /\ readDocument_declared None = Promise_ArrayBuffer
    /\ resolves_to (readDocument_declared None) (ParsedJson document) = false
    /\ resolves_to (readDocument_declared (Some json)) (ParsedJson document)
       = true.
Proof.
  intros this id response document Hok Hjson.
  split; [eexists; split; reflexivity |].
  split; [| repeat split].
  unfold_methods. step_method. rewrite Hok. step_method.
  rewrite Hjson. reflexivity.
Qed.

Lemma readDocument_default_format_witness :
  Response_ok (json_response 200 sample_document) = true
  /\ Response_json (json_response 200 sample_document) = Return sample_document
  /\ run (always (json_response 200 sample_document)) []
       (readDocument "doc_1" None sample_client)
     = ([ {| input := "https://www.rechnungs-api.de/api/v1/documents/doc_1?format=json";
             init := {| init_method := None;
                        init_headers := headers sample_client;
                        init_body := None |} |} ],
        sample_client, Return (ParsedJson sample_document))
  /\ resolves_to (readDocument_declared None) (ParsedJson sample_document)
     = false.
Proof.
  split; [reflexivity |]. split; [reflexivity |].
  split; [reflexivity |].
  exact (proj1 (proj2 (proj2 (proj2
           (readDocument_default_format sample_client "doc_1"
              (json_response 200 sample_document) sample_document
              eq_refl eq_refl))))).
Defined.

(** ** Responses outside the success range *)

(** Every method handles such a response the same way: it awaits
    [json()] and throws an [ApiError] built from the result, so a
    rejection of [json()] is thrown in its place. *)
Lemma after_non_success (call : Call) (this : Client) (request : Request)
    (response : Response) :
  first_request (invoke call this) = Some request ->
  Response_ok response = false ->
  after_response (invoke call this) response
  = Settled this
      match Response_json response with
      | Return body => Throw (ApiError (Response_status response) body)
      | Throw e => Throw e
      end.
Proof.
  intros Hreq Hok.
  by_method call; try discriminate Hreq;
    rewrite Hok; step_method;
    destruct (Response_json response); reflexivity.
Qed.

(** C3, as amended. For every method and every response outside the
    success range whose body parses as JSON, the call sends that one
    request and throws [ApiError] with the response's status and the
    parsed body; the mapping is the same for every endpoint and leaves
    the object as it was. *)
Theorem non_success_json_response_throws_ApiError :
  forall (server : Server) (history : list Request) (call : Call)
         (this : Client) (request : Request) (body : Json),
    first_request (invoke call this) = Some request ->
    Response_ok (server history request) = false ->
    Response_json (server history request) = Return body ->
    run server history (invoke call this)
    = ([request], this,
       Throw (ApiError (Response_status (server history request)) body)).
Proof.
  intros server history call this request body Hreq Hok Hjson.
  apply run_exchange; [exact Hreq |].
  rewrite (after_non_success _ _ _ _ Hreq Hok), Hjson. reflexivity.
Qed.

Lemma non_success_json_response_throws_ApiError_witness :
  run (always (json_response 422 (Jobject [("error", Jstring "invalid")]))) []
    (invoke (DeleteLedger "led_1") sample_client)
  = ([ {| input := "https://www.rechnungs-api.de/api/v1/ledgers/led_1";
          init := {| init_method := Some "DELETE";
                     init_headers := headers sample_client;
                     init_body := None |} |} ],
     sample_client,
     Throw (ApiError 422 (Jobject [("error", Jstring "invalid")]))).
Proof.
  exact (non_success_json_response_throws_ApiError
           (always (json_response 422 (Jobject [("error", Jstring "invalid")])))
           [] (DeleteLedger "led_1") sample_client _ _
           eq_refl eq_refl eq_refl).
Defined.

(** C3 as first stated fails: a 502 response with an HTML body is outside
    the success range, and [createLedger] then throws [SyntaxError], which
    is no [ApiError] at all. *)
Lemma non_success_response_without_ApiError :
  Response_ok bad_gateway_html = false
  /\ run (always bad_gateway_html) [] (invoke CreateLedger sample_client)
     = ([ {| input := "https://www.rechnungs-api.de/api/v1/ledgers";
             init := {| init_method := Some "POST";
                        init_headers := headers sample_client;
                        init_body := Some (JSON_stringify (Jobject [])) |} |} ],
        sample_client, Throw SyntaxError)
  /\ ~ (forall (call : Call) (this : Client) (request : Request)
               (response : Response),
           first_request (invoke call this) = Some request ->
           Response_ok response = false ->
           exists body,
             after_response (invoke call this) response
             = Settled this (Throw (ApiError (Response_status response) body))).
Proof.
  split; [reflexivity |]. split; [reflexivity |].
  intros Hclaim.
  destruct (Hclaim CreateLedger sample_client _ bad_gateway_html
              eq_refl eq_refl) as [body Hbody].
  discriminate Hbody.
Qed.

(** C9. When a response outside the success range has a body that is not
    JSON, the rejection of [json()] is what the call throws: the one
    request was sent, the completion is [SyntaxError], and it is not an
    [ApiError] of any status and body. *)
Theorem non_json_error_body_propagates :
  forall (server : Server) (history : list Request) (call : Call)
         (this : Client) (request : Request),
    first_request (invoke call this) = Some request ->
    Response_ok (server history request) = false ->
    Response_json (server history request) = Throw SyntaxError ->
    run server history (invoke call this)
    = ([request], this, Throw SyntaxError)
    /\ forall status body,
        snd (run server history (invoke call this))
        <> Throw (ApiError status body).
Proof.
  intros server history call this request Hreq Hok Hjson.
  assert (Hrun : run server history (invoke call this)
                 = ([request], this, Throw SyntaxError)).
  { apply run_exchange; [exact Hreq |].
    rewrite (after_non_success _ _ _ _ Hreq Hok), Hjson. reflexivity. }
  split; [exact Hrun |].
  intros status body. rewrite Hrun. simpl. discriminate.
Qed.

Lemma non_json_error_body_propagates_witness :
  run (always bad_gateway_html) []
    (invoke (ReadDocument "doc_1" (Some pdf)) sample_client)
  = ([ {| input := "https://www.rechnungs-api.de/api/v1/documents/doc_1?format=pdf";
          init := {| init_method := None;
                     init_headers := headers sample_client;
                     init_body := None |} |} ],
     sample_client, Throw SyntaxError).
Proof.
  exact (proj1 (non_json_error_body_propagates (always bad_gateway_html) []
                  (ReadDocument "doc_1" (Some pdf)) sample_client _
                  eq_refl eq_refl eq_refl)).
Defined.

(** ** Ledger transactions and accounts *)

Lemma after_success_json (call : Call) (this : Client) (request : Request)
    (response : Response) (value : Json) :
  first_request (invoke call this) = Some request ->
  (forall id, call <> ReadDocument id (Some xml)) ->
  (forall id, call <> ReadDocument id (Some pdf)) ->
  Response_ok response = true ->
  Response_json response = Return value ->
  after_response (invoke call this) response
  = Settled this (Return (ParsedJson value)).
Proof.
  intros Hreq Hxml Hpdf Hok Hjson.
  by_method call; try discriminate Hreq;
    rewrite Hok; step_method;
    try match goal with
        | |- context [match ?f with Some _ => _ | None => _ end] =>
            destruct f as [[] |];
            [ | exfalso; eapply Hxml; reflexivity
              | exfalso; eapply Hpdf; reflexivity | ]
        end;
    step_method; rewrite Hjson; reflexivity.
Qed.




(** The earlier snapshot, [src/index.ts], has every method of the later
    one but [archiveLedgerTransaction]. *)
Lemma index_ts_lacks_archive (call : Call) :
  in_public_methods call = true
  /\ (in_index_ts call = false
      <-> exists ledgerId transactionNumber,
          call = ArchiveLedgerTransaction ledgerId transactionNumber).
Proof.
  split; [now destruct call |].
  split.
  - destruct call; try discriminate. eauto.
  - intros (ledgerId & transactionNumber & ->). reflexivity.
Qed.






(** ** Configuration *)




(** ** Worked examples *)

Example query_with_reserved_bytes :
  queryParamsToString
    (Some [(js "limit", JsNumber ten);
           (js "cursor", JsString (js "a b&c=d/%~"))])
  = Return "limit=10&cursor=a+b%26c%3Dd%2F%25%7E".
Proof. reflexivity. Qed.

Example query_parsed_back :
  UrlEncoded.parse "limit=10&cursor=a+b%26c%3Dd%2F%25%7E"
  = [("limit", "10"); ("cursor", "a b&c=d/%~")].
Proof. reflexivity. Qed.

Example balances_without_range :
  run (always (json_response 200 (Jarray []))) []
    (invoke (ListLedgerBalances "led_1" None) sample_client)
  = ([ {| input := "https://www.rechnungs-api.de/api/v1/ledgers/led_1/balances?";
          init := {| init_method := None;
                     init_headers := [("Authorization", "ApiKey secret");
                                      ("Content-Type", "application/json")];
                     init_body := None |} |} ],
     sample_client, Return (ParsedJson (Jarray []))).
Proof. reflexivity. Qed.

Example xml_body_read_as_pdf :
  snd (run (always xml_invoice) []
         (readDocument "doc_1" (Some pdf) sample_client))
  = Return (ArrayBuffer (list_ascii_of_string "<Invoice/>")).
Proof. reflexivity. Qed.

Example xml_body_read_as_json :
  snd (run (always xml_invoice) []
         (readDocument "doc_1" None sample_client))
  = Throw SyntaxError.
Proof. reflexivity. Qed.

Example two_calls_on_one_client :
  let '(sent, this, completions) :=
    session (always (json_response 422 Jnull)) [] sample_client
      [CreateLedger; ListLedgers [(js "limit", undefined)];
       ArchiveLedgerTransaction "led_1" seven] in
  map input sent
  = [ "https://www.rechnungs-api.de/api/v1/ledgers";
      "https://www.rechnungs-api.de/api/v1/ledgers/led_1/transactions/7" ]
  /\ this = sample_client
  /\ completions
     = [ Throw (ApiError 422 Jnull); Throw TypeError;
         Throw (ApiError 422 Jnull) ].
Proof. repeat split. Qed.

(* ================================================================== *)
(** * Further properties of the client *)
(* ================================================================== *)

(** ** What a call sends and what it settles with *)

(** The builder throws nothing but the [TypeError] of an [undefined]
    value. *)
Lemma queryParamsToString_throws (params : option (Object JsValue))
    (e : Exception) :
  queryParamsToString params = Throw e ->
  e = TypeError
  /\ exists record k, params = Some record /\ In (k, undefined) record.
Proof.
  destruct params as [record |]; [| discriminate].
  intros Hthrow.
  destruct (declared_record record) eqn:Hdecl.
  - unfold queryParamsToString, Object_entries in Hthrow.
    rewrite (flatMap_declared _ Hdecl) in Hthrow. discriminate.
  - destruct (undeclared_has_undefined _ Hdecl) as [k Hin].
    rewrite (queryParamsToString_undefined _ _ Hin) in Hthrow.
    inversion Hthrow. eauto.
Qed.

Lemma invoke_without_request (call : Call) (this : Client) :
  first_request (invoke call this) = None ->
  invoke call this = Settled this (Throw TypeError)
  /\ exists record k,
      query_record call = Some record /\ In (k, undefined) record.
Proof.
  intros Hnone.
  destruct call; unfold_methods; step_method; try discriminate Hnone;
    match goal with
    | H : context [queryParamsToString ?q] |- _ =>
        destruct (queryParamsToString q) eqn:Hquery; step_method;
        [discriminate H |];
        destruct (queryParamsToString_throws _ _ Hquery)
          as [-> (record & k & Hrecord & Hin)];
        split; [reflexivity |]; exists record, k; simpl;
        first [ injection Hrecord as -> | subst ]; auto
    end.
Qed.

Lemma invoke_with_request (call : Call) (this : Client)
    (request : Request) :
  first_request (invoke call this) = Some request ->
  forall record,
    query_record call = Some record -> declared_record record = true.
Proof.
  intros Hreq record Hrecord.
  destruct (declared_record record) eqn:Hdecl; [reflexivity |].
  destruct (undeclared_has_undefined _ Hdecl) as [k Hin].
  pose proof (queryParamsToString_undefined _ _ Hin) as Hthrow.
  destruct call; simpl in Hrecord; try discriminate Hrecord;
    first [ injection Hrecord as -> | subst ];
    unfold_methods; step_method; rewrite Hthrow in Hreq;
    discriminate Hreq.
Qed.

Lemma after_success (call : Call) (this : Client) (request : Request)
    (response : Response) :
  first_request (invoke call this) = Some request ->
  Response_ok response = true ->
  after_response (invoke call this) response
  = Settled this (decode_as (reader_of call) response).
Proof.
  intros Hreq Hok.
  by_method call; try discriminate Hreq;
    rewrite Hok; step_method;
    try match goal with
        | |- context [match ?f with Some _ => _ | None => _ end] =>
            destruct f as [[] |]
        end;
    unfold decode_as, reader_of; step_method;
    try reflexivity; destruct (Response_json response); reflexivity.
Qed.

(** X1. A call sends at most one request, whatever the server answers;
    it sends none exactly when the record it passes to the query builder
    has an [undefined] value, and it then throws [TypeError]. *)
Theorem one_request_unless_the_query_faults :
  forall (server : Server) (history : list Request) (call : Call)
         (this : Client),
    let '(sent, _, c) := run server history (invoke call this) in
    (List.length sent <= 1)%nat
    /\ (sent = []
        <-> exists record k,
            query_record call = Some record /\ In (k, undefined) record)
    /\ (sent = [] -> c = Throw TypeError).
Proof.
  intros server history call this.
  destruct (first_request (invoke call this)) as [request |] eqn:Hreq.
  - destruct (invoke_single_exchange call this)
      as [[e He] | (request' & Hreq' & _ & _ & Hafter)].
    + rewrite He in Hreq. discriminate.
    + rewrite Hreq in Hreq'. injection Hreq' as <-.
      destruct (Hafter (server history request)) as [c Hc].
      rewrite (run_exchange _ _ _ _ _ _ Hreq Hc).
      split; [simpl; lia |]. split; [| discriminate].
      split; [discriminate |].
      intros (record & k & Hrecord & Hin).
      pose proof (invoke_with_request _ _ _ Hreq _ Hrecord) as Hdecl.
      exfalso. clear - Hdecl Hin.
      induction record as [| [k' v] record IH]; simpl in *; [contradiction |].
      apply andb_prop in Hdecl as [Hv Hrest].
      destruct Hin as [Heq | Hin]; [| now apply IH].
      inversion Heq; subst. discriminate.
  - destruct (invoke_without_request _ _ Hreq) as [-> Hrecord].
    simpl. split; [lia |]. split; [tauto | reflexivity].
Qed.

Lemma one_request_unless_the_query_faults_witness :
  snd (run (always bad_gateway_html) []
         (invoke (ListLedgerAccounts "led_1" [(js "limit", undefined)])
            sample_client))
  = Throw TypeError.
Proof.
  exact (proj2 (proj2
           (one_request_unless_the_query_faults (always bad_gateway_html) []
              (ListLedgerAccounts "led_1" [(js "limit", undefined)])
              sample_client))
           eq_refl).
Defined.

Lemma after_fetch_rejection (call : Call) (this : Client)
    (request : Request) (e : Exception) :
  first_request (invoke call this) = Some request ->
  after_rejection (invoke call this) e = Settled this (Throw e).
Proof.
  intros Hreq.
  by_method call; try discriminate Hreq; reflexivity.
Qed.

Lemma run_settles_with (server : Server) (history : list Request)
    (call : Call) (this : Client) (request : Request) :
  first_request (invoke call this) = Some request ->
  run server history (invoke call this)
  = ([request], this, settles_with call (server history request)).
Proof.
  intros Hreq.
  apply run_exchange; [exact Hreq |].
  unfold settles_with.
  destruct (Response_ok (server history request)) eqn:Hok.
  - now apply after_success with (request := request).
  - now apply after_non_success with (request := request).
Qed.

(** X2. A call that reaches [fetch] settles with a completion fixed by
    what [fetch] settles to.  When [fetch] rejects, the call throws that
    rejection.  When it resolves to a response: on a status in 200-299
    the outcome of the body reader ([json()], or the reader of the format
    for [readDocument]), with the parsed value returned as it is; on any
    other status an [ApiError] with the status and the parsed body, or
    the rejection of [json()].  The object is unchanged and [fetch] is
    not called again. *)
Theorem a_call_settles_with_its_response :
  forall (network : Network) (history : list Request) (call : Call)
         (this : Client) (request : Request),
    first_request (invoke call this) = Some request ->
    run_on network history (invoke call this)
    = ([request], this, settles_on call (network history request)).
Proof.
  intros network history call this request Hreq.
  apply run_on_exchange; [exact Hreq |].
  unfold settles_on, settles_with.
  destruct (network history request) as [response | e].
  - destruct (Response_ok response) eqn:Hok.
    + now apply after_success with (request := request).
    + now apply after_non_success with (request := request).
  - now apply after_fetch_rejection with (request := request).
Qed.

Lemma a_call_settles_with_its_response_witness :
  run_on (answering (always (json_response 200 Jnull))) []
    (invoke (CreateLedgerAccount "led_1" sample_document) sample_client)
  = ([ {| input := "https://www.rechnungs-api.de/api/v1/ledgers/led_1/accounts";
          init := {| init_method := Some "POST";
                     init_headers := headers sample_client;
                     init_body := Some (JSON_stringify sample_document) |} |} ],
     sample_client, Return (ParsedJson Jnull))
  /\ run_on (unreachable TypeError) []
       (invoke (ReadDocument "doc_1" (Some pdf)) sample_client)
     = ([ {| input := "https://www.rechnungs-api.de/api/v1/documents/doc_1?format=pdf";
             init := {| init_method := None;
                        init_headers := headers sample_client;
                        init_body := None |} |} ],
        sample_client, Throw TypeError).
Proof.
  split.
  - exact (a_call_settles_with_its_response
             (answering (always (json_response 200 Jnull)))
             [] (CreateLedgerAccount "led_1" sample_document) sample_client _
             eq_refl).
  - exact (a_call_settles_with_its_response (unreachable TypeError)
             [] (ReadDocument "doc_1" (Some pdf)) sample_client _ eq_refl).
Defined.

(** X3. When [json()] itself never rejects with an [ApiError], an
    [ApiError] thrown by a call carries the status of the response to the
    call's one request, that status is outside 200-299, and the body is
    what the response body parsed to. *)
Theorem an_ApiError_reports_a_failed_response :
  forall (server : Server) (history : list Request) (call : Call)
         (this : Client) (status : Z) (body : Json),
    (forall h r s b, Response_json (server h r) <> Throw (ApiError s b)) ->
    snd (run server history (invoke call this))
    = Throw (ApiError status body) ->
    exists request,
      fst (fst (run server history (invoke call this))) = [request]
      /\ status = Response_status (server history request)
      /\ (status < 200 \/ 299 < status)%Z
      /\ Response_json (server history request) = Return body.
Proof.
  intros server history call this status body Hjson Hthrown.
  destruct (first_request (invoke call this)) as [request |] eqn:Hreq.
  - rewrite (run_settles_with _ _ _ _ _ Hreq) in *.
    simpl in Hthrown. exists request. split; [reflexivity |].
    unfold settles_with in Hthrown.
    specialize (Hjson history request).
    destruct (Response_ok (server history request)) eqn:Hok.
    + exfalso. unfold decode_as in Hthrown.
      destruct (reader_of call); try discriminate Hthrown.
      destruct (Response_json (server history request)) as [v | e] eqn:Hj;
        simpl in Hthrown; [discriminate |].
      inversion Hthrown; subst. now apply (Hjson status body).
    + destruct (Response_json (server history request)) as [v | e] eqn:Hj.
      * inversion Hthrown; subst. split; [reflexivity |].
        split; [| reflexivity].
        unfold Response_ok in Hok.
        apply andb_false_iff in Hok as [Hlow | Hhigh].
        -- left. apply Z.leb_gt in Hlow. lia.
        -- right. apply Z.leb_gt in Hhigh. lia.
      * inversion Hthrown; subst. exfalso. now apply (Hjson status body).
  - destruct (invoke_without_request _ _ Hreq) as [Hfault _].
    rewrite Hfault in Hthrown. discriminate.
Qed.

Lemma an_ApiError_reports_a_failed_response_witness :
  exists request,
    fst (fst (run (always (json_response 422 Jnull)) []
                (invoke CreateLedger sample_client))) = [request]
    /\ 422%Z = Response_status (always (json_response 422 Jnull) [] request)
    /\ (422 < 200 \/ 299 < 422)%Z
    /\ Response_json (always (json_response 422 Jnull) [] request)
       = Return Jnull.
Proof.
  apply (an_ApiError_reports_a_failed_response
           (always (json_response 422 Jnull)) [] CreateLedger sample_client
           422%Z Jnull).
  - intros h r s b. discriminate.
  - reflexivity.
Defined.

(** ** Headers and bodies *)

(** X4. Every request of any sequence of calls carries exactly two
    headers, [Authorization] and [Content-Type: application/json]; the
    content type is sent on the requests without a body as well, and no
    call adds a header of its own. *)
Theorem every_request_has_the_same_two_headers :
  forall (options : ClientOptions) (server : Server)
         (history : list Request) (calls : list Call),
    let '(sent, _, _) := session server history (Client_new options) calls in
    Forall (fun request =>
              init_headers (init request)
              = [ ("Authorization", "ApiKey " ++ options_apiKey options);
                  ("Content-Type", "application/json") ]
              /\ has_header "Content-Type" "application/json" request)
           sent.
Proof.
  intros options server history calls.
  destruct (session_invariant server calls history (Client_new options))
    as (sent & cs & -> & Hsent).
  eapply Forall_impl; [| exact Hsent].
  intros request [Hhs _]. unfold has_header. rewrite Hhs.
  split; reflexivity.
Qed.

(** X5. A request has a body exactly when it is a POST.  The body is the
    JSON text of the argument of the creating method, and of the empty
    object for [createLedger]; reading and deleting calls send none. *)
Theorem a_body_is_sent_exactly_on_POST :
  forall (call : Call) (this : Client) (request : Request),
    first_request (invoke call this) = Some request ->
    init_body (init request) = body_of call
    /\ (init_body (init request) <> None
        <-> Request_method request = "POST").
Proof.
  intros call this request Hreq.
  by_method call; try discriminate Hreq;
    injection Hreq as <-; unfold Request_method;
    cbn [init init_method init_body body_of];
    (split; [reflexivity |]); split; intros H;
    solve [ reflexivity | discriminate | congruence | now exfalso ].
Qed.

Lemma a_body_is_sent_exactly_on_POST_witness :
  init_body
    (init {| input := "https://www.rechnungs-api.de/api/v1/ledgers";
             init := {| init_method := Some "POST";
                        init_headers := headers sample_client;
                        init_body := Some (JSON_stringify (Jobject [])) |} |})
  = Some (JSON_stringify (Jobject [])).
Proof.
  exact (proj1 (a_body_is_sent_exactly_on_POST CreateLedger sample_client _
                  eq_refl)).
Defined.

(** ** The query string *)

Lemma all_bytes_app (p : ascii -> bool) (s t : string) :
  all_bytes p (s ++ t) = (all_bytes p s && all_bytes p t)%bool.
Proof.
  induction s as [| c s IH]; simpl; [reflexivity |].
  now rewrite IH, andb_assoc.
Qed.

Lemma encode_byte_safe (c : ascii) :
  all_bytes query_safe (UrlEncoded.encode_byte c) = true.
Proof.
  destruct c as [[] [] [] [] [] [] [] []]; reflexivity.
Qed.

Lemma encode_safe (s : string) :
  all_bytes query_safe (UrlEncoded.encode s) = true.
Proof.
  induction s as [| c s IH]; simpl; [reflexivity |].
  now rewrite all_bytes_app, encode_byte_safe, IH.
Qed.

Lemma serialize_safe (l : list (string * string)) :
  all_bytes query_safe (UrlEncoded.serialize l) = true.
Proof.
  induction l as [| [name value] l IH]; [reflexivity |].
  assert (Hpair : all_bytes query_safe
                    (UrlEncoded.encode name ++ "=" ++ UrlEncoded.encode value)
                  = true).
  { rewrite !all_bytes_app, !encode_safe. reflexivity. }
  destruct l as [| kv l]; [exact Hpair |].
  change (UrlEncoded.serialize ((name, value) :: kv :: l))
    with ((UrlEncoded.encode name ++ "=" ++ UrlEncoded.encode value)
            ++ "&" ++ UrlEncoded.serialize (kv :: l)).
  rewrite all_bytes_app, Hpair. rewrite all_bytes_app, IH. reflexivity.
Qed.

(** X6. Whatever the keys and values of the record, a query string that
    the builder returns consists of ASCII letters, digits and the bytes
    [* - . _ + % = &] only: it holds no space, [#], [?] or [/], so it
    cannot end or reshape the URL it is appended to. *)
Theorem the_query_string_is_url_safe :
  forall (params : option (Object JsValue)) (query : string),
    queryParamsToString params = Return query ->
    all_bytes query_safe query = true
    /\ occurs " " query = false /\ occurs "#" query = false
    /\ occurs "?" query = false /\ occurs "/" query = false.
Proof.
  intros params query Hquery.
  assert (Hsafe : all_bytes query_safe query = true).
  { destruct params as [record |]; simpl in Hquery.
    - destruct (flatMap _ (Object_entries record)) as [entries | e];
        simpl in Hquery; [| discriminate].
      inversion Hquery. apply serialize_safe.
    - inversion Hquery. reflexivity. }
  split; [exact Hsafe |].
  clear Hquery. induction query as [| c query IH]; [repeat split |].
  simpl in Hsafe. apply andb_prop in Hsafe as [Hc Hrest].
  destruct (IH Hrest) as (H1 & H2 & H3 & H4).
  simpl. rewrite H1, H2, H3, H4.
  destruct c as [[] [] [] [] [] [] [] []]; try discriminate Hc;
    repeat split; reflexivity.
Qed.

Lemma the_query_string_is_url_safe_witness :
  occurs "#"
    "cursor=a%2Fb%3Fc%23d+e"
  = false.
Proof.
  exact (proj1 (proj2 (proj2
           (the_query_string_is_url_safe
              (Some [(js "cursor", JsString (js "a/b?c#d e"))])
              "cursor=a%2Fb%3Fc%23d+e" eq_refl)))).
Defined.

Lemma serialize_empty (l : list (string * string)) :
  UrlEncoded.serialize l = "" <-> l = [].
Proof.
  split; [| now intros ->].
  destruct l as [| [name value] l]; [reflexivity |].
  simpl. destruct (UrlEncoded.encode name), l; discriminate.
Qed.

Lemma stringified_empty (params : Object JsValue) :
  declared_record params = true ->
  (stringified params = [] <-> all_null params = true).
Proof.
  induction params as [| [k v] params IH]; simpl; intros Hdecl.
  - tauto.
  - apply andb_prop in Hdecl as [Hv Hrest].
    destruct v; simpl in *; try discriminate;
      try (split; discriminate).
    exact (IH Hrest).
Qed.

Lemma all_null_declared (params : Object JsValue) :
  all_null params = true -> declared_record params = true.
Proof.
  induction params as [| [k v] params IH]; simpl; [reflexivity |].
  intros Hnull. apply andb_prop in Hnull as [Hv Hrest].
  rewrite (IH Hrest). now destruct v.
Qed.

(** X7. The builder returns the empty string exactly when every value of
    the record is null (the empty record included); a list call given
    such a record sends the same request, and goes on the same way, as
    with the empty record: its URL ends with a bare [?]. *)
Theorem the_query_is_empty_exactly_when_all_null :
  forall params : Object JsValue,
    (queryParamsToString (Some params) = Return ""
     <-> all_null params = true)
    /\ (all_null params = true ->
        forall (ledgerId : string) (this : Client),
          invoke (ListLedgers params) this = invoke (ListLedgers []) this
          /\ invoke (ListLedgerAccounts ledgerId params) this
             = invoke (ListLedgerAccounts ledgerId []) this
          /\ invoke (ListLedgerTransactions ledgerId params) this
             = invoke (ListLedgerTransactions ledgerId []) this
          /\ invoke (ListLedgerBalances ledgerId (Some params)) this
             = invoke (ListLedgerBalances ledgerId None) this).
Proof.
  intros params.
  assert (Hiff : queryParamsToString (Some params) = Return ""
                 <-> all_null params = true).
  { split.
    - intros Hquery.
      destruct (declared_record params) eqn:Hdecl.
      + apply (stringified_empty _ Hdecl).
        unfold queryParamsToString, Object_entries in Hquery.
        rewrite (flatMap_declared _ Hdecl) in Hquery.
        cbn [CompletionMonad.bind] in Hquery.
        injection Hquery as Hser.
        unfold URLSearchParams_toString, URLSearchParams_new,
          Object_entries, Object_fromEntries in Hser.
        apply serialize_empty in Hser.
        apply map_eq_nil in Hser.
        apply (proj1 (map_of_entries_empty USVString_eqb _)) in Hser.
        apply map_eq_nil in Hser.
        exact (proj1 (map_of_entries_empty DOMString_eqb _) Hser).
      + destruct (undeclared_has_undefined _ Hdecl) as [k Hin].
        rewrite (queryParamsToString_undefined _ _ Hin) in Hquery.
        discriminate.
    - intros Hnull.
      pose proof (all_null_declared _ Hnull) as Hdecl.
      unfold queryParamsToString, Object_entries.
      rewrite (flatMap_declared _ Hdecl). simpl.
      apply (stringified_empty _ Hdecl) in Hnull. now rewrite Hnull. }
  split; [exact Hiff |].
  intros Hnull ledgerId this. apply Hiff in Hnull.
  unfold invoke, lift_json, listLedgers, listLedgerAccounts,
    listLedgerTransactions, listLedgerBalances, bind, sync, gets.
  cbn [bind_async]. rewrite Hnull. repeat split; reflexivity.
Qed.

Lemma the_query_is_empty_exactly_when_all_null_witness :
  invoke (ListLedgerBalances "led_1"
            (Some [(js "startDate", null); (js "endDate", null)]))
    sample_client
  = invoke (ListLedgerBalances "led_1" None) sample_client.
Proof.
  exact (proj2 (proj2 (proj2
           (proj2 (the_query_is_empty_exactly_when_all_null
                     [(js "startDate", null); (js "endDate", null)])
              eq_refl "led_1" sample_client)))).
Defined.

(** X8. Two records without [undefined] values, each with keys that stay
    distinct as URL text, give the same query string exactly when they
    have the same non-null pairs, in the same order, once every key and
    value is written as [URLSearchParams] writes it (string form, lone
    surrogates replaced, UTF-8): reserved bytes in a value cannot imitate
    another parameter. *)
Theorem different_parameters_give_different_queries :
  forall params1 params2 : Object JsValue,
    distinct_names params1 -> declared_record params1 = true ->
    distinct_names params2 -> declared_record params2 = true ->
    (queryParamsToString (Some params1) = queryParamsToString (Some params2)
     <-> present params1 = present params2).
Proof.
  intros params1 params2 Hnames1 Hdecl1 Hnames2 Hdecl2.
  rewrite (queryParamsToString_declared _ Hnames1 Hdecl1),
    (queryParamsToString_declared _ Hnames2 Hdecl2).
  split.
  - intros Heq. inversion Heq as [Hser].
    apply (f_equal UrlEncoded.parse) in Hser.
    now rewrite !UrlEncodedFacts.parse_serialize in Hser.
  - now intros ->.
Qed.

Lemma different_parameters_give_different_queries_witness :
  queryParamsToString (Some [(js "cursor", JsString (js "a&limit=1"))])
  <> queryParamsToString (Some [(js "cursor", JsString (js "a"));
                                (js "limit", JsNumber (Integer 1 eq_refl))]).
Proof.
  assert (Hnames1 : distinct_names
                      [(js "cursor", JsString (js "a&limit=1"))]).
  { unfold distinct_names. simpl. repeat constructor; simpl; intuition. }
  assert (Hnames2 : distinct_names
                      [(js "cursor", JsString (js "a"));
                       (js "limit", JsNumber (Integer 1 eq_refl))]).
  { unfold distinct_names. simpl.
    repeat constructor; simpl; intuition discriminate. }
  intros Heq.
  apply (different_parameters_give_different_queries _ _
           Hnames1 eq_refl Hnames2 eq_refl) in Heq.
  discriminate Heq.
Defined.

(** ** Numbers in URLs *)

Lemma append_inj_l (a x y : string) : a ++ x = a ++ y -> x = y.
Proof.
  induction a as [| c a IH]; simpl; intros Heq; [exact Heq |].
  inversion Heq. auto.
Qed.

(** X9. For one client and one ledger, archiving two different
    transaction numbers, both safe integers, sends requests to two
    different URLs: the number can be read back from the decimal numeral
    that ends the URL. *)
Theorem different_numbers_archive_at_different_urls :
  forall (this : Client) (ledgerId : string) (n m : Z)
         (safe_n : is_safe_integer n = true)
         (safe_m : is_safe_integer m = true),
    n <> m ->
    first_request (archiveLedgerTransaction ledgerId (Integer n safe_n) this)
    <> first_request
         (archiveLedgerTransaction ledgerId (Integer m safe_m) this).
Proof.
  intros this ledgerId n m safe_n safe_m Hneq Heq.
  unfold_methods. step_method.
  injection Heq as Hurl.
  apply append_inj_l in Hurl.
  repeat first [ apply append_inj_l in Hurl | injection Hurl as Hurl ].
  apply Hneq.
  apply (f_equal Number_parse) in Hurl.
  change (Number_parse (Number_toString (Integer n safe_n))
          = Number_parse (Number_toString (Integer m safe_m))) in Hurl.
  rewrite !Number_parse_Integer in Hurl. now inversion Hurl.
Qed.

Lemma different_numbers_archive_at_different_urls_witness :
  first_request (archiveLedgerTransaction "led_1" seven sample_client)
  <> first_request
       (archiveLedgerTransaction "led_1" (Integer 70 eq_refl) sample_client).
Proof.
  apply different_numbers_archive_at_different_urls. discriminate.
Defined.

(** X10. A safe integer given as a query parameter under a key of plain
    7-bit text can be read back from the query string: in a record
    without [undefined] values whose keys stay distinct, parsing the
    query gives a pair with that key whose numeral denotes the integer. *)
Theorem a_number_survives_the_query_string :
  forall (params : Object JsValue) (key : string) (n : Z)
         (safe : is_safe_integer n = true),
    distinct_names params ->
    declared_record params = true ->
    all_bytes is_ascii key = true ->
    In (js key, JsNumber (Integer n safe)) params ->
    exists query numeral,
      queryParamsToString (Some params) = Return query
      /\ In (key, numeral) (UrlEncoded.parse query)
      /\ Number_parse numeral = Some n.
Proof.
  intros params key n safe Hnames Hdecl Hkey Hin.
  exists (UrlEncoded.serialize (present params)),
    (Number_toString (Integer n safe)).
  split; [now apply queryParamsToString_declared |].
  rewrite UrlEncodedFacts.parse_serialize.
  split; [| apply Number_parse_Integer].
  apply present_In.
  exists (js key), (JsNumber (Integer n safe)),
    (js (Number_toString (Integer n safe))).
  split; [exact Hin |]. split; [discriminate |]. split; [reflexivity |].
  rewrite (utf8_js_ascii _ Hkey),
    (utf8_js_ascii _ (Number_toString_Integer_ascii n safe)).
  now split.
Qed.

Lemma a_number_survives_the_query_string_witness :
  exists query numeral,
    queryParamsToString
      (Some [(js "limit", JsNumber (Integer 25 eq_refl)); (js "cursor", null)])
    = Return query
    /\ In ("limit", numeral) (UrlEncoded.parse query)
    /\ Number_parse numeral = Some 25%Z.
Proof.
  assert (Hnames : distinct_names
                     [(js "limit", JsNumber (Integer 25 eq_refl));
                      (js "cursor", null)]).
  { unfold distinct_names. simpl.
    repeat constructor; simpl; intuition discriminate. }
  apply (a_number_survives_the_query_string _ "limit" 25%Z eq_refl
           Hnames eq_refl eq_refl).
  now left.
Defined.

(** ** Path parameters and formats *)

(** X11. Identifiers are put into the path as they are, without any
    escaping: [deleteLedger] called with an identifier that continues
    with [/transactions/] and a number is, request and outcome, the call
    [archiveLedgerTransaction] on that ledger and number. *)
Theorem path_parameters_are_not_escaped :
  forall (server : Server) (history : list Request) (this : Client)
         (ledgerId : string) (transactionNumber : Number),
    first_request
      (invoke (DeleteLedger (ledgerId ++ "/transactions/"
                               ++ Number_toString transactionNumber)) this)
    = first_request
        (invoke (ArchiveLedgerTransaction ledgerId transactionNumber) this)
    /\ run server history
         (invoke (DeleteLedger (ledgerId ++ "/transactions/"
                                  ++ Number_toString transactionNumber)) this)
       = run server history
           (invoke (ArchiveLedgerTransaction ledgerId transactionNumber) this).
Proof.
  intros server history this ledgerId transactionNumber.
  split; reflexivity.
Qed.

Lemma Format_toString_inj (f1 f2 : Format) :
  Format_toString f1 = Format_toString f2 -> f1 = f2.
Proof.
  destruct f1, f2; simpl; intros Heq; try reflexivity; discriminate.
Qed.

(** X12. [readDocument] conveys the format through the URL only: for one
    document, the requests for two formats have the same method, headers
    and (absent) body, and the same URL exactly when the formats are the
    same (an absent format counting as json).  A response outside the
    success range is handled the same way for every format: its body is
    parsed as JSON for xml and pdf too. *)
Theorem the_format_travels_in_the_url_only :
  forall (this : Client) (id : string) (format1 format2 : option Format),
    exists request1 request2,
      first_request (readDocument id format1 this) = Some request1
      /\ first_request (readDocument id format2 this) = Some request2
      /\ init request1 = init request2
      /\ (input request1 = input request2
          <-> reader_of (ReadDocument id format1)
              = reader_of (ReadDocument id format2))
      /\ forall response,
          Response_ok response = false ->
          after_response (readDocument id format1 this) response
          = after_response (readDocument id format2 this) response.
Proof.
  intros this id format1 format2.
  do 2 eexists. split; [reflexivity |]. split; [reflexivity |].
  split; [reflexivity |]. split.
  - cbn [input]. split.
    + intros Hurl.
      apply append_inj_l in Hurl.
      repeat first [ apply append_inj_l in Hurl | injection Hurl as Hurl ].
      apply Format_toString_inj in Hurl.
      destruct format1, format2; exact Hurl.
    + intros Hformat.
      destruct format1, format2; simpl in Hformat; now subst.
  - intros response Hok.
    unfold_methods. step_method. rewrite Hok. reflexivity.
Qed.

Lemma the_format_travels_in_the_url_only_witness :
  after_response (readDocument "doc_1" (Some pdf) sample_client)
    bad_gateway_html
  = after_response (readDocument "doc_1" None sample_client)
      bad_gateway_html.
Proof.
  destruct (the_format_travels_in_the_url_only sample_client "doc_1"
              (Some pdf) None)
    as (request1 & request2 & _ & _ & _ & _ & Hsame).
  exact (Hsame bad_gateway_html eq_refl).
Defined.

(** ** Further worked examples *)

Example a_number_in_exponent_form :
  queryParamsToString (Some [(js "limit", JsNumber (NotSafeInteger "1e+21"))])
  = Return "limit=1e%2B21".
Proof. reflexivity. Qed.

Example a_fraction_and_not_a_number :
  queryParamsToString
    (Some [(js "limit", JsNumber (NotSafeInteger "0.5"));
           (js "cursor", JsNumber (NotSafeInteger "NaN"))])
  = Return "limit=0.5&cursor=NaN".
Proof. reflexivity. Qed.

Example a_lone_surrogate_value :
  queryParamsToString (Some [(js "cursor", JsString (lone_surrogate 0))])
  = Return "cursor=%EF%BF%BD"
  /\ queryParamsToString (Some [(js "cursor", JsString (lone_surrogate 1))])
     = Return "cursor=%EF%BF%BD".
Proof. split; reflexivity. Qed.

Example a_surrogate_pair_value :
  queryParamsToString
    (Some [(js "cursor",
            JsString [ {| high_byte := ascii_of_N 216;
                          low_byte := ascii_of_N 61 |};
                       {| high_byte := ascii_of_N 222;
                          low_byte := ascii_of_N 0 |} ])])
  = Return "cursor=%F0%9F%98%80".
Proof. reflexivity. Qed.

Example archiving_beyond_the_safe_range :
  first_request
    (archiveLedgerTransaction "led_1" (NotSafeInteger "1e+21") sample_client)
  = Some {| input := "https://www.rechnungs-api.de/api/v1/ledgers/led_1/transactions/1e+21";
            init := {| init_method := Some "DELETE";
                       init_headers := headers sample_client;
                       init_body := None |} |}.
Proof. reflexivity. Qed.

Example a_rejected_fetch :
  run_on (unreachable TypeError) [] (invoke CreateLedger sample_client)
  = ([ {| input := "https://www.rechnungs-api.de/api/v1/ledgers";
          init := {| init_method := Some "POST";
                     init_headers := headers sample_client;
                     init_body := Some (JSON_stringify (Jobject [])) |} |} ],
     sample_client, Throw TypeError).
Proof. reflexivity. Qed.
